(** * Inverted-index apartment database (apartment.py)

    A shallow embedding of [Apartment] and [ApartmentDatabase] from
    [src/apartment.py], and the properties of [load_from_file] and [search].

    Python objects that the code mutates in place (the [set] objects stored
    in the inverted indices and the running [result_indices] of a query) live
    in an explicit object store addressed by references, so that aliasing
    between a query's working set and an index bucket is visible. *)

From Stdlib Require Import ZArith String Ascii.
From stdpp Require Import gmap strings list fin_maps sorting.

Local Open Scope string_scope.
Local Open Scope Z_scope.

#[local] Set Warnings "-clear-no-such-hyp".

(** ** Python values *)

(** A Python [float], as the dyadic rational [m * 2^e] it denotes, or one of
    the special values.  Every IEEE double is of this form. *)
Inductive pyfloat :=
  | FFinite (m e : Z)
  | FInf (negative : bool)
  | FNaN.

(** The hashable values that [json.load] produces, which are also the values
    a caller passes as search criteria ([int | str] in the annotations). *)
Inductive scalar :=
  | SNone
  | SBool (b : bool)
  | SInt (z : Z)
  | SFloat (f : pyfloat)
  | SStr (s : string).

(** Everything [json.load] can put in a field of a record. *)
#[local] Set Warnings "-register-all".
Inductive pyval :=
  | PScalar (s : scalar)
  | PList (l : list pyval)
  | PDict (d : list (string * pyval)).

#[local] Set Warnings "register-all".

Coercion PScalar : scalar >-> pyval.

(** The exceptions the modelled code can raise. *)
Inductive pyexc :=
  | KeyError
  | ValueError
  | TypeError
  | OverflowError
  | IndexError.

(** ** The builtin [int(x)] *)

(** The characters [int] skips around a literal: tab, line feed, vertical
    tab, form feed, carriage return and space. *)
Definition is_space (c : ascii) : bool :=
  let n := nat_of_ascii c in
  ((9 <=? n)%nat && (n <=? 13)%nat) || (n =? 32)%nat.

Definition digit_of (c : ascii) : option Z :=
  let n := Z.of_nat (nat_of_ascii c) in
  if (48 <=? n) && (n <=? 57) then Some (n - 48) else None.

Fixpoint lstrip (s : string) : string :=
  match s with
  | String c rest => if is_space c then lstrip rest else s
  | EmptyString => EmptyString
  end.

Definition strip (s : string) : string :=
  String.rev (lstrip (String.rev (lstrip s))).

(** Decimal digits, with single underscores allowed between two digits;
    [prev] tells whether the previous character was a digit. *)
Fixpoint parse_digits (s : string) (acc : Z) (prev : bool) : option Z :=
  match s with
  | EmptyString => if prev then Some acc else None
  | String c rest =>
      match digit_of c with
      | Some d => parse_digits rest (10 * acc + d) true
      | None =>
          if Ascii.eqb c "_"%char && prev then parse_digits rest acc false
          else None
      end
  end.

(** The interpreter's bound on the digits of a string that [int] converts,
    at its default ([sys.get_int_max_str_digits()]). *)
Definition int_max_str_digits : nat := 4300.

Fixpoint count_digits (s : string) : nat :=
  match s with
  | EmptyString => O
  | String c rest =>
      match digit_of c with
      | Some _ => S (count_digits rest)
      | None => count_digits rest
      end
  end.

(** A decimal literal of at most [int_max_str_digits] digits. *)
Definition parse_literal (s : string) : option Z :=
  if (count_digits s <=? int_max_str_digits)%nat then parse_digits s 0 false
  else None.

(** [int(s)] for a string of ASCII characters: surrounding whitespace is
    dropped, then an optional sign and a decimal literal are read.  A string
    with a character outside ASCII is outside this definition ([int] also
    takes the decimal digits and the spaces of other scripts there); what is
    proved of the strings that convert assumes [is_ascii]. *)
Definition int_of_str (s : string) : option Z :=
  match strip s with
  | String "-" rest => Z.opp <$> parse_literal rest
  | String "+" rest => parse_literal rest
  | t => parse_literal t
  end.

Fixpoint is_ascii (s : string) : bool :=
  match s with
  | EmptyString => true
  | String c rest => (nat_of_ascii c <? 128)%nat && is_ascii rest
  end.

(** [int(f)] truncates towards zero. *)
Definition int_of_float (f : pyfloat) : pyexc + Z :=
  match f with
  | FFinite m e => inr (if 0 <=? e then m * 2 ^ e else Z.quot m (2 ^ (- e)))
  | FInf _ => inl OverflowError
  | FNaN => inl ValueError
  end.

Definition py_int (v : pyval) : pyexc + Z :=
  match v with
  | PScalar (SInt z) => inr z
  | PScalar (SBool b) => inr (if b then 1 else 0)
  | PScalar (SFloat f) => int_of_float f
  | PScalar (SStr s) =>
      match int_of_str s with Some z => inr z | None => inl ValueError end
  | PScalar SNone | PList _ | PDict _ => inl TypeError
  end.

(** ** Dictionary keys

    A [dict] finds a key by [==] (and [hash]): [True], [1] and [1.0] are one
    key, a string is never equal to a number.  [pykey] is the canonical
    representative of a hashable value under that equality.  A NaN is
    found by identity; the decoder of [json] hands out one NaN object, and
    [KNaN] stands for it. *)
Inductive pykey :=
  | KNone
  | KInt (z : Z)
  | KFrac (m e : Z)
  | KInf (negative : bool)
  | KNaN
  | KStr (s : string).

Global Instance pykey_eq_dec : EqDecision pykey.
Proof. solve_decision. Defined.

Global Instance pykey_countable : Countable pykey.
Proof.
  refine (inj_countable'
    (fun k => match k with
              | KNone => inl (inl ())
              | KInt z => inl (inr z)
              | KFrac m e => inr (inl (m, e))
              | KInf b => inr (inr (inl b))
              | KNaN => inr (inr (inr (inl ())))
              | KStr s => inr (inr (inr (inr s)))
              end)
    (fun x => match x with
              | inl (inl ()) => KNone
              | inl (inr z) => KInt z
              | inr (inl (m, e)) => KFrac m e
              | inr (inr (inl b)) => KInf b
              | inr (inr (inr (inl ()))) => KNaN
              | inr (inr (inr (inr s))) => KStr s
              end) _).
  by intros [].
Defined.

(** A finite float with a negative exponent, reduced until the mantissa is
    odd or the exponent reaches zero. *)
Fixpoint reduce_float (fuel : nat) (m e : Z) : pykey :=
  match fuel with
  | O => KInt m
  | S fuel' =>
      if Z.even m then reduce_float fuel' (m / 2) (e + 1) else KFrac m e
  end.

Definition float_key (f : pyfloat) : pykey :=
  match f with
  | FFinite m e =>
      if m =? 0 then KInt 0
      else if 0 <=? e then KInt (m * 2 ^ e)
      else reduce_float (Z.to_nat (- e)) m e
  | FInf b => KInf b
  | FNaN => KNaN
  end.

Definition key_of (s : scalar) : pykey :=
  match s with
  | SNone => KNone
  | SBool b => KInt (if b then 1 else 0)
  | SInt z => KInt z
  | SFloat f => float_key f
  | SStr s => KStr s
  end.

(** [hash(v)]: lists and dicts are unhashable. *)
Definition py_hash (v : pyval) : pyexc + pykey :=
  match v with
  | PScalar s => inr (key_of s)
  | PList _ | PDict _ => inl TypeError
  end.

(** ** Records and the database *)

(** [Apartment]: the five attributes; [load_from_file] passes the integer
    ones through [int] and stores [apt_data['metro']] as it is. *)
Record Apartment := {
  total_area : Z;
  rooms : Z;
  kitchen_area : Z;
  balconies : Z;
  metro : pyval
}.

(** References to [set] objects. *)
Definition loc := positive.

(** [ApartmentDatabase]: the list [_apartments], the dict [_indices] from an
    attribute name to a dict from attribute value to (a reference to) a set
    of positions, and the store of set objects. *)
Record Database := {
  _apartments : list Apartment;
  _indices : gmap string (gmap pykey loc);
  objects : gmap loc (gset nat)
}.

(** [ApartmentDatabase.__init__] *)
Definition __init__ : Database := {|
  _apartments := [];
  _indices := <["total_area" := ∅]> (<["rooms" := ∅]> (<["kitchen_area" := ∅]>
              (<["balconies" := ∅]> (<["metro" := ∅]> ∅))));
  objects := ∅
|}.

(** ** Methods run in a state-and-exception monad *)

Definition M (A : Type) : Type := Database -> Database * (pyexc + A).

Definition ret {A} (a : A) : M A := fun db => (db, inr a).
Definition raise {A} (e : pyexc) : M A := fun db => (db, inl e).
Definition bind {A B} (m : M A) (k : A -> M B) : M B :=
  fun db =>
    match m db with
    | (db', inr a) => k a db'
    | (db', inl e) => (db', inl e)
    end.
Definition lift {A} (r : pyexc + A) : M A := fun db => (db, r).

Notation "'do' x <- m ; k" := (bind m (fun x => k))
  (at level 10, x name, m at level 100, k at level 200,
   format "'[v' 'do'  x  <-  m ;  '/' k ']'").
Notation "'exec' m ; k" := (bind m (fun _ => k))
  (at level 10, m at level 100, k at level 200,
   format "'[v' 'exec'  m ;  '/' k ']'").

(** [set()] and [s.copy()]: a new object. *)
Definition new_set (s : gset nat) : M loc := fun db =>
  let l := fresh (dom (objects db)) in
  ({| _apartments := _apartments db; _indices := _indices db;
      objects := <[l := s]> (objects db) |}, inr l).

Definition set_contents (l : loc) : M (gset nat) := fun db =>
  (db, inr (default ∅ (objects db !! l))).

(** In-place update of the object behind a reference:
    [s.add(x)], [s &= t], [s |= t]. *)
Definition set_update (l : loc) (f : gset nat -> gset nat) : M unit := fun db =>
  ({| _apartments := _apartments db; _indices := _indices db;
      objects := alter f l (objects db) |}, inr ()).

(** [self._indices[index_name]] *)
Definition getitem_indices (index_name : string) : M (gmap pykey loc) := fun db =>
  match _indices db !! index_name with
  | Some index => (db, inr index)
  | None => (db, inl KeyError)
  end.

(** [self._indices[index_name][key] = l], with [key] already hashed. *)
Definition setitem_index (index_name : string) (k : pykey) (l : loc) : M unit :=
  fun db =>
  match _indices db !! index_name with
  | Some index =>
      ({| _apartments := _apartments db;
          _indices := <[index_name := <[k := l]> index]> (_indices db);
          objects := objects db |}, inr ())
  | None => (db, inl KeyError)
  end.

(** [_clear_indices]: every index dict is emptied in place. *)
Definition _clear_indices : M unit := fun db =>
  ({| _apartments := _apartments db;
      _indices := (fun _ : gmap pykey loc => (∅ : gmap pykey loc)) <$> _indices db;
      objects := objects db |}, inr ()).

(** [_add_to_index] *)
Definition _add_to_index (index_name : string) (key : pyval)
    (apartment_index : nat) : M unit :=
  do index <- getitem_indices index_name;
  do k <- lift (py_hash key);
  exec (match index !! k with
        | None => do l <- new_set ∅; setitem_index index_name k l
        | Some _ => ret ()
        end);
  do index' <- getitem_indices index_name;
  match index' !! k with
  | Some l => set_update l (fun s => s ∪ {[apartment_index]})
  | None => raise KeyError
  end.

(** [_add_apartment] *)
Definition _add_apartment (apartment : Apartment) : M unit :=
  do apartment_index <- (fun db => (db, inr (length (_apartments db))));
  exec (fun db =>
          ({| _apartments := _apartments db ++ [apartment];
              _indices := _indices db; objects := objects db |}, inr ()));
  exec _add_to_index "total_area" (SInt (total_area apartment)) apartment_index;
  exec _add_to_index "rooms" (SInt (rooms apartment)) apartment_index;
  exec _add_to_index "kitchen_area" (SInt (kitchen_area apartment)) apartment_index;
  exec _add_to_index "balconies" (SInt (balconies apartment)) apartment_index;
  _add_to_index "metro" (metro apartment) apartment_index.

(** [apt_data[k]] *)
Definition getitem (apt_data : gmap string pyval) (k : string) : pyexc + pyval :=
  match apt_data !! k with
  | Some v => inr v
  | None => inl KeyError
  end.

Definition bind_exc {A B} (r : pyexc + A) (k : A -> pyexc + B) : pyexc + B :=
  match r with
  | inr a => k a
  | inl e => inl e
  end.

(** The call [Apartment(total_area=int(apt_data['total_area']), ...)]: the
    keyword arguments are evaluated in the order they are written. *)
Definition make_apartment (apt_data : gmap string pyval) : pyexc + Apartment :=
  bind_exc (bind_exc (getitem apt_data "total_area") py_int) (fun ta =>
  bind_exc (bind_exc (getitem apt_data "rooms") py_int) (fun r =>
  bind_exc (bind_exc (getitem apt_data "kitchen_area") py_int) (fun ka =>
  bind_exc (bind_exc (getitem apt_data "balconies") py_int) (fun b =>
  bind_exc (getitem apt_data "metro") (fun m =>
  inr {| total_area := ta; rooms := r; kitchen_area := ka;
         balconies := b; metro := m |}))))).

(** The loop [for apt_data in data] of [load_from_file]. *)
Fixpoint load_loop (data : list (gmap string pyval)) : M unit :=
  match data with
  | [] => ret ()
  | apt_data :: rest =>
      do apartment <- lift (make_apartment apt_data);
      exec _add_apartment apartment;
      load_loop rest
  end.

(** [load_from_file], from the parsed JSON [data] on, an array of objects:
    reading and parsing the file happen before the database is touched. *)
Definition load_from_file (data : list (gmap string pyval)) : M unit :=
  exec (fun db =>
          ({| _apartments := []; _indices := _indices db;
              objects := objects db |}, inr ()));
  exec _clear_indices;
  load_loop data.

(** ** Search *)

(** [_get_index_for_field]: [self._indices.get(field)] *)
Definition _get_index_for_field (field : string) : M (option (gmap pykey loc)) :=
  fun db => (db, inr (_indices db !! field)).

(** The loop [for field, value in criteria.items()] of [search];
    [result_indices] is [None] or a reference to the running set.  The
    default argument [set()] of [index.get] is built before the call. *)
Fixpoint search_loop (items : list (string * scalar)) (operator : string)
    (result_indices : option loc) : M (option loc) :=
  match items with
  | [] => ret result_indices
  | (field, value) :: rest =>
      do index <- _get_index_for_field field;
      match index with
      | None => search_loop rest operator result_indices
      | Some index =>
          do empty <- new_set ∅;
          let current_indices := default empty (index !! key_of value) in
          do current <- set_contents current_indices;
          match result_indices with
          | None =>
              do copy <- new_set current;
              search_loop rest operator (Some copy)
          | Some r =>
              exec (if String.eqb operator "AND"
                    then set_update r (fun s => s ∩ current)
                    else set_update r (fun s => s ∪ current));
              search_loop rest operator (Some r)
          end
      end
  end.

(** [sorted(s)] for a set of positions. *)
Definition sorted (s : gset nat) : list nat := merge_sort le (elements s).

(** [[self._apartments[i] for i in ids]] *)
Fixpoint getitems (apartments : list Apartment) (ids : list nat)
    : pyexc + list Apartment :=
  match ids with
  | [] => inr []
  | i :: rest =>
      match apartments !! i with
      | Some a => bind_exc (getitems apartments rest) (fun l => inr (a :: l))
      | None => inl IndexError
      end
  end.

(** [search]; [criteria] is the sequence [criteria.items()] of the dict. *)
Definition search (criteria : list (string * scalar)) (operator : string)
    : M (list Apartment) :=
  match criteria with
  | [] => ret []
  | _ =>
      do result_indices <- search_loop criteria operator None;
      match result_indices with
      | None => ret []
      | Some r =>
          do s <- set_contents r;
          if decide (s = ∅) then ret []
          else fun db => (db, getitems (_apartments db) (sorted s))
      end
  end.

(** ** Buckets

    The five searchable attributes, and the contents of the inverted indices
    read through the object store. *)

Definition fields : list string :=
  ["total_area"; "rooms"; "kitchen_area"; "balconies"; "metro"].

Definition int_fields : list string :=
  ["total_area"; "rooms"; "kitchen_area"; "balconies"].

(** The reference held by [_indices[a][k]], if that bucket exists. *)
Definition bucket_ref (db : Database) (a : string) (k : pykey) : option loc :=
  match _indices db !! a with
  | Some index => index !! k
  | None => None
  end.

(** The positions in bucket [k] of index [a]; empty when there is none. *)
Definition bucket (db : Database) (a : string) (k : pykey) : gset nat :=
  match bucket_ref db a k with
  | Some l => default ∅ (objects db !! l)
  | None => ∅
  end.

Definition contents (db : Database) (l : loc) : gset nat :=
  default ∅ (objects db !! l).

(** [apartment.a] for the five properties of [Apartment]. *)
Definition getattr (apartment : Apartment) (a : string) : option pyval :=
  if String.eqb a "total_area" then Some (PScalar (SInt (total_area apartment)))
  else if String.eqb a "rooms" then Some (PScalar (SInt (rooms apartment)))
  else if String.eqb a "kitchen_area" then Some (PScalar (SInt (kitchen_area apartment)))
  else if String.eqb a "balconies" then Some (PScalar (SInt (balconies apartment)))
  else if String.eqb a "metro" then Some (metro apartment)
  else None.

(** The dictionary key that [apartment.a] is, when it is hashable. *)
Definition attr_key (a : string) (apartment : Apartment) : option pykey :=
  match getattr apartment a with
  | Some v => match py_hash v with inr k => Some k | inl _ => None end
  | None => None
  end.

Definition hashable (v : pyval) : Prop := ∃ k, py_hash v = inr k.

(** ** Invariants *)

(** The indices are the five dicts created by [__init__], every bucket is a
    live set object, and no set object is shared between two buckets. *)
Record wf (db : Database) : Prop := {
  wf_fields : dom (_indices db) = list_to_set fields;
  wf_dom : ∀ a k l, bucket_ref db a k = Some l → l ∈ dom (objects db);
  wf_inj : ∀ a1 k1 a2 k2 l,
    bucket_ref db a1 k1 = Some l → bucket_ref db a2 k2 = Some l →
    a1 = a2 ∧ k1 = k2
}.

(** Bucket [k] of index [a] holds exactly the positions of the records whose
    attribute [a] is the key [k]. *)
Definition consistent (db : Database) : Prop :=
  ∀ a k p, p ∈ bucket db a k ↔
    ∃ apartment, _apartments db !! p = Some apartment ∧
                 attr_key a apartment = Some k.

(** Every stored [metro] can be a dictionary key. *)
Definition stored_hashable (db : Database) : Prop :=
  Forall (fun apartment => hashable (metro apartment)) (_apartments db).

(** [db'] is [db] with more set objects, all old ones but [r] unchanged. *)
Definition extends (db db' : Database) (r : option loc) : Prop :=
  _apartments db' = _apartments db ∧ _indices db' = _indices db ∧
  dom (objects db) ⊆ dom (objects db') ∧
  ∀ l, l ∈ dom (objects db) → Some l ≠ r →
       objects db' !! l = objects db !! l.

(** [r] refers to a set object that no index holds. *)
Definition private (db : Database) (r : option loc) : Prop :=
  ∀ l, r = Some l → l ∈ dom (objects db) ∧ ∀ a k, bucket_ref db a k ≠ Some l.

(** ** States *)

(** The states a database goes through: created, then loaded (with or
    without an exception) and searched any number of times. *)
Inductive reachable : Database → Prop :=
  | reachable_init : reachable __init__
  | reachable_load data db :
      reachable db → reachable (fst (load_from_file data db))
  | reachable_search criteria operator db :
      reachable db → reachable (fst (search criteria operator db)).

(** The states after a load that returned normally and any number of
    searches after it. *)
Inductive loaded : Database → Prop :=
  | loaded_load data db :
      reachable db → snd (load_from_file data db) = inr () →
      loaded (fst (load_from_file data db))
  | loaded_search criteria operator db :
      loaded db → loaded (fst (search criteria operator db)).

(** ** Loading *)

(** The state [load_from_file] starts its loop from. *)
Definition cleared (db : Database) : Database :=
  {| _apartments := [];
     _indices := (fun _ : gmap pykey loc => (∅ : gmap pykey loc)) <$> _indices db;
     objects := objects db |}.

(** A record of the input that [load_from_file] goes through without an
    exception, and the [Apartment] it is stored as. *)
Definition loads_as (apt_data : gmap string pyval) (apartment : Apartment) : Prop :=
  make_apartment apt_data = inr apartment ∧ hashable (metro apartment).

(** The same records, by their contents: the five keys are there, [int]
    takes the four integer fields, and the [metro] value can be a dictionary
    key. *)
Definition accepted (apt_data : gmap string pyval) : Prop :=
  (∀ a, a ∈ int_fields → ∃ v z, apt_data !! a = Some v ∧ py_int v = inr z) ∧
  (∃ v k, apt_data !! "metro" = Some v ∧ py_hash v = inr k).

(** The integer fields of the record that are strings are ASCII strings,
    the strings [int_of_str] is [int] on. *)
Definition ascii_int_fields (apt_data : gmap string pyval) : Prop :=
  forallb (fun a => match apt_data !! a with
                    | Some (PScalar (SStr s)) => is_ascii s
                    | _ => true
                    end) int_fields = true.

(** ** Queries *)

(** The set of positions that the loop of [search] ends with (empty when no
    criterion was recognised): the identifiers a query selects. *)
Definition search_ids (criteria : list (string * scalar)) (operator : string)
    (db : Database) : gset nat :=
  match search_loop criteria operator None db with
  | (db', inr (Some r)) => default ∅ (objects db' !! r)
  | _ => ∅
  end.

(** The loop of [search] on set values instead of set objects. *)
Fixpoint fold_ids (bk : string → pykey → gset nat)
    (items : list (string * scalar)) (operator : string)
    (acc : option (gset nat)) : option (gset nat) :=
  match items with
  | [] => acc
  | (field, value) :: rest =>
      if bool_decide (field ∈ fields) then
        let current := bk field (key_of value) in
        fold_ids bk rest operator
          (Some (match acc with
                 | None => current
                 | Some r => if String.eqb operator "AND" then r ∩ current
                             else r ∪ current
                 end))
      else fold_ids bk rest operator acc
  end.

(** [result] is a normal return with the records at the positions [ids],
    in ascending order of position. *)
Definition returns_records (db : Database) (result : pyexc + list Apartment)
    (ids : gset nat) : Prop :=
  ∃ res positions, result = inr res ∧
    StronglySorted lt positions ∧ (∀ i, i ∈ positions ↔ i ∈ ids) ∧
    Forall2 (fun i a => _apartments db !! i = Some a) positions res.

(** ** The wording of the specification *)

(** Index consistency: the record at position [p] is in the bucket of its
    own value of attribute [a], and in no other bucket of that index. *)
Definition index_consistent (db : Database) : Prop :=
  ∀ p apartment a v,
    _apartments db !! p = Some apartment → a ∈ fields →
    getattr apartment a = Some v →
    ∃ k, py_hash v = inr k ∧ p ∈ bucket db a k ∧
         ∀ k', k' ≠ k → p ∉ bucket db a k'.

(** A valid record: the integer fields parse as integers and [metro] is a
    non-empty string. *)
Definition spec_valid (apt_data : gmap string pyval) : Prop :=
  (∀ a, a ∈ int_fields → ∃ v z, apt_data !! a = Some v ∧ py_int v = inr z) ∧
  (∃ s, apt_data !! "metro" = Some (PScalar (SStr s)) ∧ s ≠ "").

(** The load contract: failure exactly on an invalid record, and no change
    of state on failure. *)
Definition spec_load_contract (data : list (gmap string pyval))
    (db : Database) : Prop :=
  ((∃ e, snd (load_from_file data db) = inl e) ↔
   Exists (fun apt_data => ¬ spec_valid apt_data) data) ∧
  (∀ e, snd (load_from_file data db) = inl e →
        fst (load_from_file data db) = db).

(** The fold of [search] when a criterion on an unrecognised attribute
    contributes the empty set. *)
Fixpoint spec_fold_ids (bk : string → pykey → gset nat)
    (items : list (string * scalar)) (operator : string)
    (acc : option (gset nat)) : option (gset nat) :=
  match items with
  | [] => acc
  | (field, value) :: rest =>
      let current :=
        if bool_decide (field ∈ fields) then bk field (key_of value) else ∅ in
      spec_fold_ids bk rest operator
        (Some (match acc with
               | None => current
               | Some r => if String.eqb operator "AND" then r ∩ current
                           else r ∪ current
               end))
  end.

(** [search] returns the records that fold selects. *)
Definition spec_unknown_is_empty (db : Database)
    (criteria : list (string * scalar)) (operator : string) : Prop :=
  returns_records db (snd (search criteria operator db))
    (default ∅ (spec_fold_ids (bucket db) criteria operator None)).

(** ** The sample data of [main.py]

    The four records of [create_sample_data], with the station names in
    Latin letters. *)

Definition record (ta r ka b : Z) (m : string) : gmap string pyval :=
  <["total_area" := PScalar (SInt ta)]> (<["rooms" := PScalar (SInt r)]>
  (<["kitchen_area" := PScalar (SInt ka)]> (<["balconies" := PScalar (SInt b)]>
  (<["metro" := PScalar (SStr m)]> ∅)))).

Definition sample_data : list (gmap string pyval) :=
  [ record 75 3 12 1 "Akademicheskaya";
    record 45 1 9 1 "Politekhnicheskaya";
    record 60 2 10 2 "Akademicheskaya";
    record 100 4 15 2 "Politekhnicheskaya" ].

Definition apt (ta r ka b : Z) (m : string) : Apartment :=
  {| total_area := ta; rooms := r; kitchen_area := ka; balconies := b;
     metro := PScalar (SStr m) |}.

Definition sample_db : Database := fst (load_from_file sample_data __init__).

(** A record whose [rooms] is not a number. *)
Definition bad_rooms : gmap string pyval :=
  <["rooms" := PScalar (SStr "two")]> (record 50 2 8 0 "Akademicheskaya").

(** A record whose [rooms] is a string of digits. *)
Definition str_rooms : gmap string pyval :=
  <["rooms" := PScalar (SStr " 2 ")]> (record 50 2 8 0 "Akademicheskaya").

(** A record whose [metro] is a list. *)
Definition bad_metro : gmap string pyval :=
  <["metro" := PList []]> (record 75 3 12 1 "Akademicheskaya").

(** ** Scanning the store *)

(** [apartment.f == v] for a criterion [(f, v)] on one of the five
    attributes; a criterion on another attribute matches nothing. *)
Definition matches (apartment : Apartment) (c : string * scalar) : bool :=
  bool_decide (attr_key c.1 apartment = Some (key_of c.2)).

Definition recognised (c : string * scalar) : bool :=
  bool_decide (c.1 ∈ fields).

(** The record satisfies every recognised criterion. *)
Definition matches_all (criteria : list (string * scalar))
    (apartment : Apartment) : bool :=
  forallb (fun c => implb (recognised c) (matches apartment c)) criteria.

(** The record satisfies some criterion. *)
Definition matches_any (criteria : list (string * scalar))
    (apartment : Apartment) : bool :=
  existsb (matches apartment) criteria.

(** ** The keys of the indices and the report summary *)

(** Every bucket that exists holds a position. *)
Definition populated (db : Database) : Prop :=
  ∀ a k, is_Some (bucket_ref db a k) → bucket db a k ≠ ∅.

(** The counts of [_create_database_summary]: [len(db._apartments)] and
    [len(db._indices['metro'])].  The average area, a float, is left out. *)
Definition summary_counts : M (nat * nat) := fun db =>
  let total_apartments := length (_apartments db) in
  match _indices db !! "metro" with
  | Some index => (db, inr (total_apartments, size index))
  | None => (db, inl KeyError)
  end.

(** * Properties *)

Example int_of_str_ex1 : int_of_str " 1_000 " = Some 1000.
Proof. reflexivity. Qed.
Example int_of_str_ex2 : int_of_str "-42" = Some (-42).
Proof. reflexivity. Qed.
Example int_of_str_ex3 : int_of_str "4 2" = None.
Proof. reflexivity. Qed.
Example int_of_str_ex4 : int_of_str (String (ascii_of_nat 28) "5") = None.
Proof. reflexivity. Qed.
Example int_of_str_ex5 : int_of_str (String (ascii_of_nat 9) "+5_0") = Some 50.
Proof. reflexivity. Qed.
Example float_key_ex : float_key (FFinite 8 (-2)) = KInt 2.
Proof. reflexivity. Qed.

Example py_int_float : py_int (SFloat (FFinite 91 (-1))) = inr 45.
Proof. reflexivity. Qed.
Example py_int_none : py_int SNone = inl TypeError.
Proof. reflexivity. Qed.
Example key_of_bool : key_of (SBool true) = key_of (SInt 1).
Proof. reflexivity. Qed.

Example sample_loads : snd (load_from_file sample_data __init__) = inr ().
Proof. vm_compute. reflexivity. Qed.

Example test1 :
  snd (search [("metro", SStr "Akademicheskaya")] "AND" sample_db)
  = inr [apt 75 3 12 1 "Akademicheskaya"; apt 60 2 10 2 "Akademicheskaya"].
Proof. vm_compute. reflexivity. Qed.

Example test2 :
  snd (search [("rooms", SInt 2)] "AND" sample_db)
  = inr [apt 60 2 10 2 "Akademicheskaya"].
Proof. vm_compute. reflexivity. Qed.

Example test3 :
  snd (search [("balconies", SInt 2); ("metro", SStr "Politekhnicheskaya")]
         "AND" sample_db)
  = inr [apt 100 4 15 2 "Politekhnicheskaya"].
Proof. vm_compute. reflexivity. Qed.

Example test4 :
  snd (search [("total_area", SInt 75); ("balconies", SInt 2)] "OR" sample_db)
  = inr [apt 75 3 12 1 "Akademicheskaya"; apt 60 2 10 2 "Akademicheskaya";
         apt 100 4 15 2 "Politekhnicheskaya"].
Proof. vm_compute. reflexivity. Qed.

Example load_empty_metro :
  snd (load_from_file [record 75 3 12 1 ""] __init__) = inr ().
Proof. vm_compute. reflexivity. Qed.

Example load_bad_rooms :
  snd (load_from_file [bad_rooms] sample_db) = inl ValueError ∧
  _apartments (fst (load_from_file [bad_rooms] sample_db)) = [].
Proof. split; vm_compute; reflexivity. Qed.

Example load_missing_key :
  snd (load_from_file [delete "balconies" (record 75 3 12 1 "M")] __init__)
  = inl KeyError.
Proof. vm_compute. reflexivity. Qed.

Example load_unhashable_metro :
  snd (load_from_file
         [<["metro" := PList []]> (record 75 3 12 1 "M")] __init__)
  = inl TypeError ∧
  length (_apartments (fst (load_from_file
         [<["metro" := PList []]> (record 75 3 12 1 "M")] __init__))) = 1%nat.
Proof. split; vm_compute; reflexivity. Qed.

Example search_unknown_then_rooms :
  snd (search [("unknown_field", SInt 1); ("rooms", SInt 2)] "AND" sample_db)
  = inr [apt 60 2 10 2 "Akademicheskaya"].
Proof. vm_compute. reflexivity. Qed.

(** ** Invariants of the object store *)

Lemma wf_is_field db a : wf db → is_Some (_indices db !! a) ↔ a ∈ fields.
Proof.
  intros Hwf. rewrite <- elem_of_dom, (wf_fields db Hwf).
  apply elem_of_list_to_set.
Qed.

Lemma wf_init : wf __init__.
Proof.
  split.
  - reflexivity.
  - intros a k l. unfold bucket_ref, __init__; simpl.
    repeat (rewrite lookup_insert; case_decide; [by rewrite lookup_empty|]).
    by rewrite lookup_empty.
  - intros a1 k1 a2 k2 l. unfold bucket_ref at 1, __init__; simpl.
    repeat (rewrite lookup_insert; case_decide; [by rewrite lookup_empty|]).
    by rewrite lookup_empty.
Qed.

Lemma add_to_index_err index_name key i db e :
  is_Some (_indices db !! index_name) → py_hash key = inl e →
  _add_to_index index_name key i db = (db, inl e).
Proof.
  intros [index Hi] Hk. unfold _add_to_index, bind, getitem_indices, lift.
  by rewrite Hi, Hk.
Qed.

Lemma add_to_index_ok index_name key k i db :
  wf db → index_name ∈ fields → py_hash key = inr k →
  ∃ db', _add_to_index index_name key i db = (db', inr ()) ∧ wf db' ∧
    _apartments db' = _apartments db ∧
    ∀ a' k', bucket db' a' k' =
      bucket db a' k' ∪
      (if decide (a' = index_name ∧ k' = k) then {[i]} else ∅).
Proof.
  intros Hwf Hf Hk.
  destruct (proj2 (wf_is_field db index_name Hwf) Hf) as [index Hi].
  unfold _add_to_index, bind, getitem_indices, lift. rewrite Hi, Hk.
  destruct (index !! k) as [l|] eqn:Hl.
  - unfold ret. rewrite Hi, Hl. unfold set_update.
    eexists; split; [reflexivity|].
    assert (Hr : bucket_ref db index_name k = Some l)
      by (unfold bucket_ref; by rewrite Hi).
    split; [|split; [done|]].
    + split; simpl; [apply (wf_fields _ Hwf) | | apply (wf_inj _ Hwf)].
      intros a k' l' H'. rewrite dom_alter_L. by eapply wf_dom.
    + intros a' k'. unfold bucket at 1, bucket_ref at 1; simpl.
      fold (bucket_ref db a' k').
      case_decide as Hd.
      * destruct Hd as [-> ->]. rewrite Hr, lookup_alter_eq.
        unfold bucket. rewrite Hr.
        apply (wf_dom db Hwf), elem_of_dom in Hr as [s ->]. done.
      * rewrite union_empty_r_L.
        unfold bucket. destruct (bucket_ref db a' k') as [l'|] eqn:Hr'; [|done].
        rewrite lookup_alter_ne; [done|]. intros ->.
        apply Hd. eapply wf_inj; eauto.
  - unfold new_set, setitem_index; simpl. rewrite Hi. simpl.
    rewrite lookup_insert_eq, lookup_insert_eq. unfold set_update; simpl.
    eexists; split; [reflexivity|].
    set (l := fresh (dom (objects db))).
    assert (Hfresh : l ∉ dom (objects db)) by apply is_fresh.
    assert (Hr : bucket_ref db index_name k = None)
      by (unfold bucket_ref; by rewrite Hi).
    assert (Href : ∀ a' k',
      bucket_ref {| _apartments := _apartments db;
                    _indices := <[index_name:=<[k:=l]> index]> (_indices db);
                    objects := alter (λ s : gset nat, s ∪ {[i]}) l
                                 (<[l:=∅]> (objects db)) |} a' k'
      = if decide (a' = index_name ∧ k' = k) then Some l
        else bucket_ref db a' k').
    { intros a' k'. unfold bucket_ref; simpl.
      destruct (decide (a' = index_name)) as [->|Hne].
      - rewrite lookup_insert_eq, Hi.
        destruct (decide (k' = k)) as [->|Hnk].
        + rewrite lookup_insert_eq. by rewrite decide_True.
        + rewrite lookup_insert_ne by done. rewrite decide_False; [done|tauto].
      - rewrite lookup_insert_ne by done. rewrite decide_False; [done|tauto]. }
    split; [|split; [done|]].
    + split.
      * simpl. rewrite dom_insert_L, (wf_fields db Hwf).
        assert (index_name ∈ (list_to_set fields : gset string))
          by (by apply elem_of_list_to_set).
        set_solver.
      * intros a' k' l'. rewrite Href. simpl.
        rewrite dom_alter_L, dom_insert_L.
        case_decide; [intros [= <-]; set_solver|].
        intros H'. apply (wf_dom db Hwf) in H'. set_solver.
      * intros a1 k1 a2 k2 l'. rewrite !Href.
        repeat case_decide.
        -- naive_solver.
        -- intros [= <-] H'. apply (wf_dom db Hwf) in H'. done.
        -- intros H' [= <-]. apply (wf_dom db Hwf) in H'. done.
        -- apply (wf_inj _ Hwf).
    + intros a' k'. unfold bucket at 1. rewrite Href. simpl.
      case_decide as Hd.
      * rewrite lookup_alter_eq, lookup_insert_eq. simpl.
        destruct Hd as [-> ->]. unfold bucket. rewrite Hr. done.
      * rewrite union_empty_r_L.
        unfold bucket. destruct (bucket_ref db a' k') as [l'|] eqn:Hr'; [|done].
        assert (l' ≠ l).
        { intros ->. apply (wf_dom db Hwf) in Hr'. done. }
        rewrite lookup_alter_ne, lookup_insert_ne by done. done.
Qed.

(** ** Adding a record *)

Ltac case_eqb :=
  match goal with
  | |- context [String.eqb ?x ?y] =>
      destruct (String.eqb_spec x y) as [->|?]; simpl
  end.

Ltac solve_buckets :=
  repeat (case_decide; destruct_and?; simplify_eq/=;
          try (exfalso; intuition congruence));
  try reflexivity; set_solver.

Lemma add_apartment_spec apartment db :
  wf db →
  ∃ db', _add_apartment apartment db
         = (db', match py_hash (metro apartment) with
                 | inr _ => inr ()
                 | inl e => inl e
                 end) ∧
    wf db' ∧ _apartments db' = (_apartments db ++ [apartment])%list ∧
    ∀ a k, bucket db' a k =
      bucket db a k ∪
      (if decide (attr_key a apartment = Some k)
       then {[length (_apartments db)]} else ∅).
Proof.
  intros Hwf. unfold _add_apartment.
  change (_add_to_index "metro" (metro apartment)) with
    (_add_to_index "metro" (metro apartment)).
  set (db0 := {| _apartments := _apartments db ++ [apartment];
                 _indices := _indices db; objects := objects db |}).
  assert (Hwf0 : wf db0) by (destruct Hwf; by split).
  assert (Hb0 : ∀ a k, bucket db0 a k = bucket db a k) by done.
  set (i := length (_apartments db)).
  destruct (add_to_index_ok "total_area" (SInt (total_area apartment)) _ i db0
              Hwf0 ltac:(unfold fields; set_solver) eq_refl)
    as (db1 & E1 & Hwf1 & Ha1 & Hb1).
  destruct (add_to_index_ok "rooms" (SInt (rooms apartment)) _ i db1
              Hwf1 ltac:(unfold fields; set_solver) eq_refl)
    as (db2 & E2 & Hwf2 & Ha2 & Hb2).
  destruct (add_to_index_ok "kitchen_area" (SInt (kitchen_area apartment)) _ i db2
              Hwf2 ltac:(unfold fields; set_solver) eq_refl)
    as (db3 & E3 & Hwf3 & Ha3 & Hb3).
  destruct (add_to_index_ok "balconies" (SInt (balconies apartment)) _ i db3
              Hwf3 ltac:(unfold fields; set_solver) eq_refl)
    as (db4 & E4 & Hwf4 & Ha4 & Hb4).
  assert (Hb : ∀ a k, bucket db4 a k =
      bucket db a k ∪
      (if decide (a ≠ "metro" ∧ attr_key a apartment = Some k)
       then {[i]} else ∅)).
  { intros a k. rewrite Hb4, !Hb3, !Hb2, !Hb1, !Hb0.
    unfold attr_key, getattr; simpl.
    repeat (case_eqb; [solve_buckets|]). solve_buckets. }
  clear Hb0 Hb1 Hb2 Hb3 Hb4.
  unfold bind. fold db0. fold i. rewrite E1, E2, E3, E4.
  destruct (py_hash (metro apartment)) as [e|km] eqn:Hm.
  - exists db4. split; [|split; [done|split]].
    + apply add_to_index_err; [|done].
      apply (wf_is_field db4 "metro" Hwf4). unfold fields; set_solver.
    + by rewrite Ha4, Ha3, Ha2, Ha1.
    + intros a k. rewrite Hb. clear Hb.
      unfold attr_key, getattr.
      repeat (case_eqb; [rewrite ?Hm; solve_buckets|]). solve_buckets.
  - destruct (add_to_index_ok "metro" (metro apartment) km i db4
              Hwf4 ltac:(unfold fields; set_solver) Hm)
      as (db5 & E5 & Hwf5 & Ha5 & Hb5).
    exists db5. split; [done|split; [done|split]].
    + by rewrite Ha5, Ha4, Ha3, Ha2, Ha1.
    + intros a k. rewrite Hb5, !Hb. clear Hb Hb5.
      unfold attr_key, getattr.
      repeat (case_eqb; [rewrite ?Hm; solve_buckets|]). solve_buckets.
Qed.

(** ** The loop of [load_from_file] *)

Lemma bind_ok {A B} (m : M A) (k : A → M B) db db' a :
  m db = (db', inr a) → bind m k db = k a db'.
Proof. intros E. unfold bind. by rewrite E. Qed.

Lemma bind_err {A B} (m : M A) (k : A → M B) db db' e :
  m db = (db', inl e) → bind m k db = (db', inl e).
Proof. intros E. unfold bind. by rewrite E. Qed.

Lemma consistent_add db db' apartment :
  consistent db →
  _apartments db' = (_apartments db ++ [apartment])%list →
  (∀ a k, bucket db' a k =
     bucket db a k ∪
     (if decide (attr_key a apartment = Some k)
      then {[length (_apartments db)]} else ∅)) →
  consistent db'.
Proof.
  intros Hc Ha Hb a k p. rewrite Hb, Ha, elem_of_union, (Hc a k p). split.
  - intros [(x & Hx & Hk)|Hp].
    + exists x. split; [|done]. by apply lookup_app_l_Some.
    + case_decide as Hd; [|set_solver].
      apply elem_of_singleton in Hp as ->. exists apartment.
      split; [|done]. by rewrite lookup_app_r, Nat.sub_diag.
  - intros (x & Hx & Hk). apply lookup_app_Some in Hx as [Hx|[Hlen Hx]].
    + left. eauto.
    + right. apply list_lookup_singleton_Some in Hx as [Hp <-].
      rewrite decide_True by done. apply elem_of_singleton. lia.
Qed.

Lemma load_from_file_eq data db :
  load_from_file data db = load_loop data (cleared db).
Proof. reflexivity. Qed.

Lemma bucket_ref_cleared db a k : bucket_ref (cleared db) a k = None.
Proof.
  unfold bucket_ref, cleared; simpl. rewrite lookup_fmap.
  by destruct (_indices db !! a).
Qed.

Lemma wf_cleared db :
  dom (_indices db) = list_to_set fields → wf (cleared db).
Proof.
  intros Hd. split.
  - simpl. by rewrite dom_fmap_L.
  - intros a k l. by rewrite bucket_ref_cleared.
  - intros a1 k1 a2 k2 l. by rewrite bucket_ref_cleared.
Qed.

Lemma consistent_cleared db : consistent (cleared db).
Proof.
  intros a k p. unfold bucket. rewrite bucket_ref_cleared. simpl.
  split; [set_solver|]. intros (x & Hx & _). done.
Qed.

Lemma load_loop_app d1 d2 db :
  load_loop (d1 ++ d2) db = bind (load_loop d1) (fun _ => load_loop d2) db.
Proof.
  revert db. induction d1 as [|r d1 IH]; intros db; [done|].
  simpl. unfold bind, lift in *.
  destruct (make_apartment r) as [e|apartment]; [done|].
  destruct (_add_apartment apartment db) as [db1 [e|[]]]; [done|].
  apply IH.
Qed.

Lemma load_loop_cons_err r data db e :
  make_apartment r = inl e → load_loop (r :: data) db = (db, inl e).
Proof. intros E. simpl. unfold bind, lift. by rewrite E. Qed.

Lemma load_loop_cons_ok r data db apartment :
  make_apartment r = inr apartment →
  load_loop (r :: data) db
  = bind (_add_apartment apartment) (fun _ => load_loop data) db.
Proof. intros E. simpl. unfold bind at 1, lift. by rewrite E. Qed.

(** What the loop of [load_from_file] does, by cases on its outcome. *)
Lemma load_loop_cases data db :
  wf db → consistent db →
  (∃ db' apartments,
     load_loop data db = (db', inr ()) ∧
     Forall2 loads_as data apartments ∧
     _apartments db' = (_apartments db ++ apartments)%list ∧
     wf db' ∧ consistent db') ∨
  (∃ db' e k apt_data dbk apartments,
     load_loop data db = (db', inl e) ∧
     data !! k = Some apt_data ∧
     load_loop (take k data) db = (dbk, inr ()) ∧
     Forall2 loads_as (take k data) apartments ∧
     _apartments dbk = (_apartments db ++ apartments)%list ∧
     (make_apartment apt_data = inl e ∧ db' = dbk ∨
      ∃ apartment, make_apartment apt_data = inr apartment ∧
        py_hash (metro apartment) = inl e ∧
        _add_apartment apartment dbk = (db', inl e)) ∧
     wf db' ∧ consistent db').
Proof.
  revert db. induction data as [|r data IH]; intros db Hwf Hc.
  - left. exists db, []. rewrite app_nil_r. split_and!; auto.
  - destruct (make_apartment r) as [e|apartment] eqn:Hr.
    { right. exists db, e, 0%nat, r, db, []. rewrite app_nil_r.
      rewrite (load_loop_cons_err _ _ _ _ Hr). split_and!; auto. }
    rewrite (load_loop_cons_ok _ _ _ _ Hr).
    destruct (add_apartment_spec apartment db Hwf) as (db1 & E1 & Hwf1 & Ha1 & Hb1).
    pose proof (consistent_add db db1 apartment Hc Ha1 Hb1) as Hc1.
    destruct (py_hash (metro apartment)) as [e|km] eqn:Hm.
    { right. exists db1, e, 0%nat, r, db, []. rewrite app_nil_r.
      rewrite (bind_err _ _ _ _ _ E1). split_and!; eauto. }
    rewrite (bind_ok _ _ _ _ _ E1).
    destruct (IH db1 Hwf1 Hc1) as
      [(db' & apts & E & HF & Ha & Hwf' & Hc')
      |(db' & e & k & r' & dbk & apts & E & Hk & Ek & HF & Ha & Hcase & Hwf' & Hc')].
    + left. exists db', (apartment :: apts). rewrite E.
      split_and!; auto.
      * constructor; [|done]. split; [done|]. by exists km.
      * by rewrite Ha, Ha1, <- app_assoc.
    + right. exists db', e, (S k), r', dbk, (apartment :: apts). rewrite E.
      split; [done|]. split; [done|]. split.
      { change (take (S k) (r :: data)) with (r :: take k data).
        by rewrite (load_loop_cons_ok _ _ _ _ Hr), (bind_ok _ _ _ _ _ E1). }
      split.
      { simpl. constructor; [|done]. split; [done|]. by exists km. }
      split; [by rewrite Ha, Ha1, <- app_assoc|].
      split_and!; auto.
Qed.

(** ** The loop of [search] *)

Lemma extends_refl db r : extends db db r.
Proof. by split_and!. Qed.

Lemma extends_trans db1 db2 db3 r r' :
  extends db1 db2 r → extends db2 db3 r' →
  (∀ l, r' = Some l → l ∈ dom (objects db1) → r = Some l) →
  extends db1 db3 r.
Proof.
  intros (Ha & Hi & Hd & Ho) (Ha' & Hi' & Hd' & Ho') Hr.
  split_and!; [congruence | congruence | set_solver |].
  intros l Hl Hne. rewrite Ho', Ho; auto.
  intros Heq. apply Hne. symmetry in Heq. rewrite <- (Hr l Heq Hl). done.
Qed.

Lemma extends_bucket_ref db db' r a k :
  extends db db' r → bucket_ref db' a k = bucket_ref db a k.
Proof. intros (_ & Hi & _). unfold bucket_ref. by rewrite Hi. Qed.

Lemma extends_wf db db' r : wf db → extends db db' r → wf db'.
Proof.
  intros Hwf He. pose proof He as (Ha & Hi & Hd & Ho). split.
  - rewrite Hi. apply (wf_fields _ Hwf).
  - intros a k l. rewrite (extends_bucket_ref _ _ _ _ _ He). intros H.
    apply Hd. by eapply wf_dom.
  - intros a1 k1 a2 k2 l. rewrite !(extends_bucket_ref _ _ _ _ _ He).
    apply (wf_inj _ Hwf).
Qed.

Lemma extends_bucket db db' r a k :
  wf db → private db r → extends db db' r → bucket db' a k = bucket db a k.
Proof.
  intros Hwf Hp He. unfold bucket. rewrite (extends_bucket_ref _ _ _ _ _ He).
  destruct (bucket_ref db a k) as [l|] eqn:Hl; [|done].
  destruct He as (_ & _ & _ & Ho). rewrite Ho; [done| |].
  - by eapply wf_dom.
  - intros <-. destruct (Hp l eq_refl) as [_ Hn]. by apply (Hn a k).
Qed.

Lemma new_set_spec s db :
  wf db →
  ∃ db' l, new_set s db = (db', inr l) ∧ (l ∉ dom (objects db)) ∧
    objects db' = <[l := s]> (objects db) ∧
    extends db db' None ∧ private db' (Some l).
Proof.
  intros Hwf. unfold new_set. eexists _, _. split; [reflexivity|].
  pose proof (is_fresh (dom (objects db))) as Hf.
  split; [done|]. split; [done|]. split.
  - split_and!; simpl; [done | done | rewrite dom_insert_L; set_solver |].
    intros l Hl _. rewrite lookup_insert_ne; [done|]. intros <-. done.
  - intros l [= <-]. simpl. split; [rewrite dom_insert_L; set_solver|].
    intros a k. unfold bucket_ref. simpl. fold (bucket_ref db a k).
    intros H. apply (wf_dom _ Hwf) in H. done.
Qed.

Lemma fold_ids_ext bk bk' items operator acc :
  (∀ a k, bk a k = bk' a k) →
  fold_ids bk items operator acc = fold_ids bk' items operator acc.
Proof.
  intros Hb. revert acc.
  induction items as [|[field value] rest IH]; intros acc; [done|].
  simpl. case_bool_decide; [|done]. by rewrite Hb.
Qed.

Lemma extends_weaken db db' r : extends db db' None → extends db db' r.
Proof.
  intros (Ha & Hi & Hd & Ho). split_and!; auto.
Qed.

Lemma set_update_spec l f db :
  wf db → private db (Some l) →
  ∃ db', set_update l f db = (db', inr ()) ∧
    extends db db' (Some l) ∧ private db' (Some l) ∧
    contents db' l = f (contents db l).
Proof.
  intros Hwf Hp. destruct (Hp l eq_refl) as [Hl Hn].
  unfold set_update. eexists. split; [reflexivity|]. split_and!.
  - split_and!; simpl; [done | done | by rewrite dom_alter_L |].
    intros l' _ Hne. rewrite lookup_alter_ne; [done|]. congruence.
  - intros l' [= <-]. simpl. by rewrite dom_alter_L.
  - unfold contents; simpl. rewrite lookup_alter_eq.
    apply elem_of_dom in Hl as [s ->]. done.
Qed.

Lemma contents_bucket db field index k l0 :
  wf db → _indices db !! field = Some index → l0 ∉ dom (objects db) →
  default ∅ (<[l0 := ∅]> (objects db) !! default l0 (index !! k))
  = bucket db field k.
Proof.
  intros Hwf Hi Hl0. unfold bucket, bucket_ref. rewrite Hi.
  destruct (index !! k) as [lb|] eqn:Hk; simpl.
  - rewrite lookup_insert_ne; [done|]. intros <-. apply Hl0.
    apply (wf_dom _ Hwf field k). unfold bucket_ref. by rewrite Hi.
  - by rewrite lookup_insert_eq.
Qed.

Lemma search_loop_spec items operator : ∀ db r,
  wf db → private db r →
  ∃ db' r', search_loop items operator r db = (db', inr r') ∧
    extends db db' r ∧ private db' r' ∧
    (∀ l, r = Some l → r' = Some l) ∧
    contents db' <$> r' = fold_ids (bucket db) items operator (contents db <$> r).
Proof.
  induction items as [|[field value] rest IH]; intros db r Hwf Hp.
  - exists db, r. split_and!; auto using extends_refl.
  - simpl. unfold bind at 1, _get_index_for_field.
    destruct (_indices db !! field) as [index|] eqn:Hi.
    2:{ rewrite bool_decide_eq_false_2; [by apply IH|].
        rewrite <- (wf_is_field db field Hwf), Hi. by intros [? ?]. }
    rewrite bool_decide_eq_true_2
      by (apply (wf_is_field db field Hwf); rewrite Hi; eauto).
    destruct (new_set_spec ∅ db Hwf) as (db1 & l0 & E0 & Hl0 & Ho1 & He1 & Hp1).
    rewrite (bind_ok _ _ _ _ _ E0).
    pose proof (extends_wf _ _ _ Hwf He1) as Hwf1.
    unfold bind at 1, set_contents. rewrite Ho1.
    rewrite (contents_bucket db field index (key_of value) l0 Hwf Hi Hl0).
    destruct r as [l|]; simpl.
    + assert (Hpl : private db1 (Some l)).
      { intros l' [= <-]. destruct (Hp l eq_refl) as [Hd Hn]. split.
        - destruct He1 as (_ & _ & Hsub & _). by apply Hsub.
        - intros a k. rewrite (extends_bucket_ref _ _ _ _ _ He1). apply Hn. }
      set (f := if String.eqb operator "AND"
                then fun s : gset nat => s ∩ bucket db field (key_of value)
                else fun s : gset nat => s ∪ bucket db field (key_of value)).
      assert (Hup : (if String.eqb operator "AND"
                     then set_update l (fun s => s ∩ bucket db field (key_of value))
                     else set_update l (fun s => s ∪ bucket db field (key_of value)))
                    = set_update l f)
        by (unfold f; by destruct (String.eqb operator "AND")).
      rewrite Hup.
      destruct (set_update_spec l f db1 Hwf1 Hpl) as (db2 & E2 & He2 & Hp2 & Hc2).
      rewrite (bind_ok _ _ _ _ _ E2).
      pose proof (extends_wf _ _ _ Hwf1 He2) as Hwf2.
      destruct (IH db2 (Some l) Hwf2 Hp2) as (db' & r' & E & He & Hp' & Hr & Hc).
      exists db', r'. split; [done|]. split_and!; [|done| |].
      * eapply extends_trans; [|exact He|auto].
        eapply extends_trans; [apply extends_weaken, He1|exact He2|auto].
      * intros l' [= <-]. auto.
      * rewrite Hc. simpl.
        assert (Hb2 : ∀ a k, bucket db2 a k = bucket db a k).
        { intros a k.
          rewrite (extends_bucket db1 db2 (Some l) a k Hwf1 Hpl He2).
          apply (extends_bucket db db1 None); [done| |done]. by intros ?. }
        assert (Hcl : contents db1 l = contents db l).
        { unfold contents. destruct He1 as (_ & _ & _ & Ho). rewrite Ho; auto.
          by destruct (Hp l eq_refl). }
        rewrite Hc2, Hcl.
        erewrite (fold_ids_ext _ (bucket db)) by exact Hb2.
        unfold f. by destruct (String.eqb operator "AND").
    + set (cur := bucket db field (key_of value)).
      destruct (new_set_spec cur db1 Hwf1) as (db2 & l1 & E2 & Hl1 & Ho2 & He2 & Hp2).
      rewrite (bind_ok _ _ _ _ _ E2).
      pose proof (extends_wf _ _ _ Hwf1 He2) as Hwf2.
      destruct (IH db2 (Some l1) Hwf2 Hp2) as (db' & r' & E & He & Hp' & Hr & Hc).
      exists db', r'. split; [done|]. split_and!; [|done| |].
      * eapply extends_trans; [|exact He|].
        -- eapply extends_trans; [exact He1|exact He2|auto].
        -- intros l [= <-] Hl. exfalso. apply Hl1.
           destruct He1 as (_ & _ & Hsub & _). by apply Hsub.
      * intros l [=].
      * rewrite Hc. simpl.
        assert (Hb2 : ∀ a k, bucket db2 a k = bucket db a k).
        { intros a k.
          rewrite (extends_bucket db1 db2 None a k Hwf1); [|by intros ?|done].
          apply (extends_bucket db db1 None); [done| |done]. by intros ?. }
        erewrite (fold_ids_ext _ (bucket db)) by exact Hb2.
        unfold contents. by rewrite Ho2, lookup_insert_eq.
Qed.

Lemma private_None db : private db None.
Proof. by intros ?. Qed.

Lemma search_ids_fold criteria operator db :
  wf db →
  search_ids criteria operator db
  = default ∅ (fold_ids (bucket db) criteria operator None).
Proof.
  intros Hwf. unfold search_ids.
  destruct (search_loop_spec criteria operator db None Hwf (private_None db))
    as (db' & r' & E & _ & _ & _ & Hc).
  rewrite E. simpl in Hc. rewrite <- Hc. by destruct r'.
Qed.

Lemma sorted_empty : sorted ∅ = [].
Proof. unfold sorted. by rewrite elements_empty. Qed.

Lemma search_spec criteria operator db :
  wf db →
  ∃ db', search criteria operator db
         = (db', getitems (_apartments db) (sorted (search_ids criteria operator db))) ∧
    extends db db' None.
Proof.
  intros Hwf. unfold search_ids.
  destruct (search_loop_spec criteria operator db None Hwf (private_None db))
    as (db' & r' & E & He & _ & _ & _).
  rewrite E.
  destruct criteria as [|c criteria].
  { exists db. simpl in E. injection E as <- <-. rewrite sorted_empty.
    split; [done|apply extends_refl]. }
  unfold search. rewrite (bind_ok _ _ _ _ _ E).
  exists db'. split; [|done].
  destruct r' as [r|]; [|by rewrite sorted_empty].
  unfold bind, set_contents. case_decide as Hs.
  - rewrite Hs, sorted_empty. done.
  - destruct He as (-> & _). done.
Qed.

(** ** Reachable states *)

Lemma loaded_reachable db : loaded db → reachable db.
Proof. induction 1; by constructor. Qed.

Lemma extends_consistent db db' :
  wf db → extends db db' None → consistent db → consistent db'.
Proof.
  intros Hwf He Hc a k p.
  rewrite (extends_bucket db db' None a k Hwf (private_None db) He).
  destruct He as (-> & _). apply Hc.
Qed.

Lemma load_from_file_inv data db :
  wf db →
  wf (fst (load_from_file data db)) ∧ consistent (fst (load_from_file data db)).
Proof.
  intros Hwf. rewrite load_from_file_eq.
  destruct (load_loop_cases data (cleared db)
              (wf_cleared db (wf_fields _ Hwf)) (consistent_cleared db))
    as [(db' & apts & E & _ & _ & Hwf' & Hc')
       |(db' & e & k & r' & dbk & apts & E & _ & _ & _ & _ & _ & Hwf' & Hc')];
    by rewrite E.
Qed.

Lemma reachable_inv db : reachable db → wf db ∧ consistent db.
Proof.
  induction 1 as [|data db _ [Hwf Hc]|criteria operator db _ [Hwf Hc]].
  - split; [apply wf_init|]. intros a k p.
    assert (bucket __init__ a k = ∅) as ->.
    { unfold bucket, bucket_ref, __init__; simpl.
      repeat (rewrite lookup_insert; case_decide; [by rewrite lookup_empty|]).
      by rewrite lookup_empty. }
    split; [set_solver|]. by intros (x & Hx & _).
  - by apply load_from_file_inv.
  - destruct (search_spec criteria operator db Hwf) as (db' & E & He).
    rewrite E. simpl. split; [by eapply extends_wf|by eapply extends_consistent].
Qed.

(** ** Sorting and reading the store *)

Lemma elem_of_sorted (s : gset nat) i : i ∈ sorted s ↔ i ∈ s.
Proof.
  unfold sorted. rewrite merge_sort_Permutation. apply elem_of_elements.
Qed.

Lemma StronglySorted_le_lt (l : list nat) :
  StronglySorted le l → NoDup l → StronglySorted lt l.
Proof.
  induction 1 as [|x l Hs IH Hx]; intros Hnd; constructor.
  - apply IH. by eapply NoDup_cons_1_2.
  - apply NoDup_cons in Hnd as [Hn _].
    rewrite Forall_forall in *. intros y Hy.
    specialize (Hx y Hy). assert (x ≠ y) by (intros ->; done). lia.
Qed.

Lemma sorted_strict (s : gset nat) : StronglySorted lt (sorted s).
Proof.
  apply StronglySorted_le_lt.
  - unfold sorted. apply (StronglySorted_merge_sort le).
  - unfold sorted. rewrite merge_sort_Permutation. apply NoDup_elements.
Qed.

Lemma getitems_ok apartments ids :
  Forall (fun i => i < length apartments)%nat ids →
  ∃ res, getitems apartments ids = inr res ∧
         Forall2 (fun i a => apartments !! i = Some a) ids res.
Proof.
  induction 1 as [|i ids Hi _ (res & E & HF)].
  - exists []. by split.
  - apply lookup_lt_is_Some_2 in Hi as [a Ha].
    exists (a :: res). simpl. rewrite Ha, E. split; [done|]. by constructor.
Qed.

Lemma Forall2_impl_Forall {A B} (P P' : A → B → Prop) (Q : A → Prop) xs ys :
  Forall2 P xs ys → Forall Q xs → (∀ x y, Q x → P x y → P' x y) →
  Forall2 P' xs ys.
Proof.
  intros HF HQ Himp. induction HF as [|x y xs ys Hxy _ IH]; [constructor|].
  apply Forall_cons in HQ as [Hx HQ]. constructor; auto.
Qed.

Lemma lookups_sublist (l : list Apartment) : ∀ n ids res,
  StronglySorted lt ids → Forall (fun i => n ≤ i)%nat ids →
  Forall2 (fun i a => l !! (i - n)%nat = Some a) ids res →
  res `sublist_of` l.
Proof.
  induction l as [|x l IH]; intros n ids res Hs Hn HF.
  - destruct HF as [|i a ids res Hi _]; [constructor|done].
  - destruct HF as [|i a ids res Hi HF]; [apply sublist_nil_l|].
    apply StronglySorted_inv in Hs as [Hs Hlt].
    apply Forall_cons in Hn as [Hni Hn].
    assert (Hshift : ∀ j b, (n < j)%nat →
              (x :: l) !! (j - n)%nat = Some b → l !! (j - S n)%nat = Some b).
    { intros j b Hj. replace (j - n)%nat with (S (j - S n)) by lia. done. }
    destruct (decide (i = n)) as [->|Hne].
    + rewrite Nat.sub_diag in Hi. injection Hi as ->.
      apply sublist_skip. apply (IH (S n) ids res Hs).
      * eapply Forall_impl; [exact Hlt|]. simpl. lia.
      * eapply Forall2_impl_Forall; [exact HF|exact Hlt|]. simpl. auto.
    + apply sublist_cons. apply (IH (S n) (i :: ids) (a :: res)).
      * by constructor.
      * constructor; [lia|]. eapply Forall_impl; [exact Hlt|]. simpl. lia.
      * constructor; [apply Hshift; [lia|done]|].
        eapply Forall2_impl_Forall; [exact HF|exact Hlt|].
        simpl. intros j b Hj. apply Hshift. lia.
Qed.

Lemma getitems_sublist (apartments : list Apartment) ids res :
  StronglySorted lt ids →
  Forall2 (fun i a => apartments !! i = Some a) ids res →
  res `sublist_of` apartments.
Proof.
  intros Hs HF. apply (lookups_sublist apartments 0%nat ids res Hs).
  - apply Forall_forall. intros; lia.
  - eapply Forall2_impl; [exact HF|]. simpl. intros i a. by rewrite Nat.sub_0_r.
Qed.

(** Positions in buckets are positions of the store. *)
Lemma consistent_bound db a k p :
  consistent db → p ∈ bucket db a k → (p < length (_apartments db))%nat.
Proof.
  intros Hc Hp. apply Hc in Hp as (x & Hx & _). by eapply lookup_lt_Some.
Qed.

Lemma fold_ids_bound db items operator : ∀ acc s,
  consistent db →
  (∀ s0, acc = Some s0 → ∀ p, p ∈ s0 → (p < length (_apartments db))%nat) →
  fold_ids (bucket db) items operator acc = Some s →
  ∀ p, p ∈ s → (p < length (_apartments db))%nat.
Proof.
  induction items as [|[field value] rest IH]; intros acc s Hc Hacc; simpl.
  - intros ->. by apply Hacc.
  - case_bool_decide; [|by apply IH].
    apply IH; [done|]. intros s0 [= <-] p.
    destruct acc as [r|].
    + destruct (String.eqb operator "AND").
      * rewrite elem_of_intersection. intros [Hp _]. by eapply Hacc.
      * rewrite elem_of_union. intros [Hp|Hp]; [by eapply Hacc|].
        by eapply consistent_bound.
    + by apply consistent_bound.
Qed.

Lemma search_ids_bound db criteria operator p :
  wf db → consistent db →
  p ∈ search_ids criteria operator db → (p < length (_apartments db))%nat.
Proof.
  intros Hwf Hc. rewrite search_ids_fold by done.
  destruct (fold_ids (bucket db) criteria operator None) as [s|] eqn:E;
    simpl; [|set_solver].
  eapply fold_ids_bound; [done| |exact E]. by intros ?.
Qed.

(** [search] returns the records at the selected positions, in ascending
    order of position. *)
Lemma search_result db criteria operator :
  wf db → consistent db →
  ∃ res, snd (search criteria operator db) = inr res ∧
    Forall2 (fun i a => _apartments db !! i = Some a)
            (sorted (search_ids criteria operator db)) res.
Proof.
  intros Hwf Hc. destruct (search_spec criteria operator db Hwf) as (db' & E & _).
  rewrite E. simpl. apply getitems_ok, Forall_forall. intros i Hi.
  apply elem_of_sorted in Hi. by eapply search_ids_bound.
Qed.

(** ** Accepted records *)

Lemma accepted_loads_as apt_data :
  accepted apt_data ↔ ∃ apartment, loads_as apt_data apartment.
Proof.
  unfold accepted, loads_as, make_apartment, getitem, hashable. split.
  - intros [Hint (v & k & Hm & Hk)].
    destruct (Hint "total_area") as (v1 & z1 & E1 & I1); [unfold int_fields; set_solver|].
    destruct (Hint "rooms") as (v2 & z2 & E2 & I2); [unfold int_fields; set_solver|].
    destruct (Hint "kitchen_area") as (v3 & z3 & E3 & I3); [unfold int_fields; set_solver|].
    destruct (Hint "balconies") as (v4 & z4 & E4 & I4); [unfold int_fields; set_solver|].
    rewrite E1, E2, E3, E4, Hm. simpl. rewrite I1, I2, I3, I4. simpl.
    eexists. split; [reflexivity|]. simpl. eauto.
  - intros (apartment & E & k & Hk).
    destruct (apt_data !! "total_area") as [v1|] eqn:E1; simpl in E; [|done].
    destruct (py_int v1) as [|z1] eqn:I1; simpl in E; [done|].
    destruct (apt_data !! "rooms") as [v2|] eqn:E2; simpl in E; [|done].
    destruct (py_int v2) as [|z2] eqn:I2; simpl in E; [done|].
    destruct (apt_data !! "kitchen_area") as [v3|] eqn:E3; simpl in E; [|done].
    destruct (py_int v3) as [|z3] eqn:I3; simpl in E; [done|].
    destruct (apt_data !! "balconies") as [v4|] eqn:E4; simpl in E; [|done].
    destruct (py_int v4) as [|z4] eqn:I4; simpl in E; [done|].
    destruct (apt_data !! "metro") as [v5|] eqn:E5; simpl in E; [|done].
    injection E as <-. simpl in Hk. split; [|eauto].
    intros a Ha. unfold int_fields in Ha.
    rewrite !elem_of_cons, elem_of_nil in Ha.
    destruct Ha as [->|[->|[->|[->|[]]]]]; eauto.
Qed.

Lemma Forall_accepted data :
  Forall accepted data ↔ ∃ apartments, Forall2 loads_as data apartments.
Proof.
  split.
  - induction 1 as [|r data Hr _ [apts IH]]; [by exists []|].
    apply accepted_loads_as in Hr as [a Ha]. exists (a :: apts). by constructor.
  - intros [apts HF]. induction HF as [|r a data apts Hr _ IH]; constructor; [|done].
    apply accepted_loads_as. eauto.
Qed.

Lemma py_int_error v e :
  py_int v = inl e → e ∈ [KeyError; ValueError; TypeError; OverflowError].
Proof.
  destruct v as [[| | |[]|s]| |]; simpl; try destruct (int_of_str s);
    intros [= <-]; set_solver.
Qed.

Lemma make_apartment_error apt_data e :
  make_apartment apt_data = inl e →
  e ∈ [KeyError; ValueError; TypeError; OverflowError].
Proof.
  unfold make_apartment, getitem.
  destruct (apt_data !! "total_area") as [v1|]; simpl; [|intros [= <-]; set_solver].
  destruct (py_int v1) eqn:I1; simpl; [intros [= <-]; by eapply py_int_error|].
  destruct (apt_data !! "rooms") as [v2|]; simpl; [|intros [= <-]; set_solver].
  destruct (py_int v2) eqn:I2; simpl; [intros [= <-]; by eapply py_int_error|].
  destruct (apt_data !! "kitchen_area") as [v3|]; simpl; [|intros [= <-]; set_solver].
  destruct (py_int v3) eqn:I3; simpl; [intros [= <-]; by eapply py_int_error|].
  destruct (apt_data !! "balconies") as [v4|]; simpl; [|intros [= <-]; set_solver].
  destruct (py_int v4) eqn:I4; simpl; [intros [= <-]; by eapply py_int_error|].
  destruct (apt_data !! "metro") as [v5|]; simpl; [done|intros [= <-]; set_solver].
Qed.

Lemma py_hash_error v e : py_hash v = inl e → e = TypeError.
Proof. destruct v; simpl; congruence. Qed.

Lemma load_from_file_cases data db :
  wf db →
  (∃ db' apartments,
     load_from_file data db = (db', inr ()) ∧
     Forall2 loads_as data apartments ∧ _apartments db' = apartments ∧
     wf db' ∧ consistent db') ∨
  (∃ db' e k apt_data dbk apartments,
     load_from_file data db = (db', inl e) ∧
     data !! k = Some apt_data ∧
     load_from_file (take k data) db = (dbk, inr ()) ∧
     Forall2 loads_as (take k data) apartments ∧
     _apartments dbk = apartments ∧
     (make_apartment apt_data = inl e ∧ db' = dbk ∨
      ∃ apartment, make_apartment apt_data = inr apartment ∧
        py_hash (metro apartment) = inl e ∧
        _add_apartment apartment dbk = (db', inl e)) ∧
     wf db' ∧ consistent db').
Proof.
  intros Hwf. rewrite !load_from_file_eq.
  apply (load_loop_cases data (cleared db)
           (wf_cleared db (wf_fields _ Hwf)) (consistent_cleared db)).
Qed.

Lemma failing_record_not_accepted apt_data e :
  (make_apartment apt_data = inl e ∨
   ∃ apartment, make_apartment apt_data = inr apartment ∧
                py_hash (metro apartment) = inl e) →
  ¬ accepted apt_data.
Proof.
  intros Hcase Hacc. apply accepted_loads_as in Hacc as (a & Ha & k & Hk).
  destruct Hcase as [E|(a' & E & Hh)]; [congruence|].
  assert (a' = a) as -> by congruence. congruence.
Qed.

Lemma loaded_inv db :
  loaded db → wf db ∧ consistent db ∧ stored_hashable db.
Proof.
  induction 1 as [data db Hr Hok|criteria operator db _ (Hwf & Hc & Hh)].
  - apply reachable_inv in Hr as [Hwf _].
    destruct (load_from_file_cases data db Hwf)
      as [(db' & apts & E & HF & Ha & Hwf' & Hc')
         |(db' & e & k & r' & dbk & apts & E & _)];
      rewrite E in *; simpl in *; [|done].
    split_and!; [done|done|]. unfold stored_hashable. rewrite Ha.
    clear -HF. induction HF as [|r a data apts [_ Hh] _ IH]; by constructor.
  - destruct (search_spec criteria operator db Hwf) as (db' & E & He).
    rewrite E. simpl.
    split_and!; [by eapply extends_wf|by eapply extends_consistent|].
    unfold stored_hashable. by destruct He as (-> & _).
Qed.

(** ** Results of a query *)

Lemma search_returns db criteria operator :
  wf db → consistent db →
  returns_records db (snd (search criteria operator db))
    (search_ids criteria operator db).
Proof.
  intros Hwf Hc.
  destruct (search_result db criteria operator Hwf Hc) as (res & E & HF).
  exists res, (sorted (search_ids criteria operator db)).
  split_and!; [done|apply sorted_strict|apply elem_of_sorted|done].
Qed.

Lemma search_ids_single db f v operator :
  wf db → f ∈ fields →
  search_ids [(f, v)] operator db = bucket db f (key_of v).
Proof.
  intros Hwf Hf. rewrite search_ids_fold by done. simpl.
  by rewrite bool_decide_eq_true_2.
Qed.

Lemma fold_ids_filter bk items operator : ∀ acc,
  fold_ids bk (filter (fun c => c.1 ∈ fields) items) operator acc
  = fold_ids bk items operator acc.
Proof.
  induction items as [|[field value] rest IH]; intros acc; [done|].
  rewrite filter_cons. simpl. case_decide as Hd.
  - simpl. rewrite bool_decide_eq_true_2 by done. apply IH.
  - rewrite bool_decide_eq_false_2 by done. apply IH.
Qed.

Lemma fold_ids_unknown bk items operator acc :
  Forall (fun c => c.1 ∉ fields) items →
  fold_ids bk items operator acc = acc.
Proof.
  induction 1 as [|[field value] rest Hf _ IH]; [done|].
  simpl in *. by rewrite bool_decide_eq_false_2.
Qed.

Lemma search_snd db criteria operator :
  wf db →
  snd (search criteria operator db)
  = getitems (_apartments db) (sorted (search_ids criteria operator db)).
Proof.
  intros Hwf. destruct (search_spec criteria operator db Hwf) as (db' & E & _).
  by rewrite E.
Qed.

(** ** Loading, searching and the indices *)

Lemma reachable_sample : reachable sample_db.
Proof. apply reachable_load, reachable_init. Qed.

Lemma loaded_sample : loaded sample_db.
Proof. apply loaded_load; [apply reachable_init|]. vm_compute. reflexivity. Qed.

(** C1 (as amended).  From any reachable state, and for input whose integer
    fields, where they are strings, are ASCII strings, [load_from_file]
    returns normally exactly when every input record is [accepted]: it has
    the five keys, [int] takes its four integer fields, and its [metro]
    value is hashable ([metro] is not checked otherwise, an empty string
    passes).  When it raises, the exception is the one of the first record
    that is not accepted (a [KeyError], [ValueError], [TypeError] or
    [OverflowError]; the code has no validation error of its own) and there
    is no rollback: when the record fails in its conversion, the state left
    is the one a load of the records before it produces, their [Apartment]s
    in the store. *)
Theorem load_from_file_outcome data db :
  reachable db → Forall ascii_int_fields data →
  (snd (load_from_file data db) = inr () ↔ Forall accepted data) ∧
  (∀ e, snd (load_from_file data db) = inl e →
     e ∈ [KeyError; ValueError; TypeError; OverflowError] ∧
     ∃ k apt_data dbk,
       data !! k = Some apt_data ∧ ¬ accepted apt_data ∧
       Forall accepted (take k data) ∧
       load_from_file (take k data) db = (dbk, inr ()) ∧
       Forall2 loads_as (take k data) (_apartments dbk) ∧
       (make_apartment apt_data = inl e ∧
        fst (load_from_file data db) = dbk
        ∨ ∃ apartment,
            make_apartment apt_data = inr apartment ∧
            py_hash (metro apartment) = inl e)).
Proof.
  intros Hr _. apply reachable_inv in Hr as [Hwf _].
  destruct (load_from_file_cases data db Hwf)
    as [(db' & apts & E & HF & Ha & Hwf' & Hc')
       |(db' & e & k & r & dbk & apts & E & Hk & Ek & HF & Ha & Hcase & _)];
    rewrite E; simpl.
  - split; [|done]. split; [|done]. intros _. apply Forall_accepted. eauto.
  - assert (Hna : ¬ accepted r).
    { apply (failing_record_not_accepted r e).
      destruct Hcase as [[? _]|(a & ? & ? & _)]; eauto. }
    split.
    + split; [done|]. intros Hall. exfalso. apply Hna.
      rewrite Forall_forall in Hall. apply Hall.
      by eapply list_elem_of_lookup_2.
    + intros e' [= <-]. split.
      { destruct Hcase as [[Hmk _]|(a & _ & Hh & _)].
        - by eapply make_apartment_error.
        - apply py_hash_error in Hh as ->. set_solver. }
      exists k, r, dbk. subst apts.
      split_and!; auto; [apply Forall_accepted; eauto|].
      destruct Hcase as [[Hmk ->]|(a & Hmk & Hh & _)]; [by left|right; eauto].
Qed.

Lemma load_from_file_outcome_witness :
  snd (load_from_file [str_rooms; record 60 2 10 2 "Akademicheskaya"] sample_db)
  = inr () ↔
  Forall accepted [str_rooms; record 60 2 10 2 "Akademicheskaya"].
Proof.
  refine (proj1 (load_from_file_outcome
                   [str_rooms; record 60 2 10 2 "Akademicheskaya"] sample_db
                   (reachable_load sample_data __init__ reachable_init) _)).
  repeat constructor.
Defined.

Lemma load_contract_counterexample :
  ¬ spec_load_contract [record 75 3 12 1 ""] __init__ ∧
  ¬ spec_load_contract [bad_rooms] sample_db.
Proof.
  split.
  - intros [[_ Hfail] _].
    destruct Hfail as [e He]; [|vm_compute in He; discriminate].
    constructor. intros [_ (s & Hs & Hne)].
    vm_compute in Hs. injection Hs as <-. done.
  - intros [_ Hsame].
    specialize (Hsame ValueError ltac:(vm_compute; reflexivity)).
    apply (f_equal (fun d => length (_apartments d))) in Hsame.
    vm_compute in Hsame. discriminate.
Qed.

(** C2 (as amended).  In any reachable state, for every criteria sequence
    and operator, [search] skips the criteria whose attribute is not one of
    the five: it returns what it returns for the recognised criteria alone,
    it raises nothing, and it returns the empty list when no criterion is
    recognised (as for [{"unknown_field": 1}]). *)
Theorem search_skips_unknown db criteria operator :
  reachable db →
  snd (search criteria operator db)
  = snd (search (filter (fun c => c.1 ∈ fields) criteria) operator db) ∧
  (∃ res, snd (search criteria operator db) = inr res) ∧
  (Forall (fun c => c.1 ∉ fields) criteria →
   snd (search criteria operator db) = inr []).
Proof.
  intros Hr. apply reachable_inv in Hr as [Hwf Hc]. split_and!.
  - rewrite !search_snd, !search_ids_fold by done. by rewrite fold_ids_filter.
  - destruct (search_result db criteria operator Hwf Hc) as (res & E & _). eauto.
  - intros Hu. rewrite search_snd, search_ids_fold by done.
    rewrite fold_ids_unknown by done. simpl. by rewrite sorted_empty.
Qed.

Lemma search_skips_unknown_witness :
  snd (search [("unknown_field", SInt 1)] "AND" sample_db) = inr [].
Proof.
  refine (proj2 (proj2 (search_skips_unknown sample_db
            [("unknown_field", SInt 1)] "AND" _)) _).
  - apply reachable_load, reachable_init.
  - constructor; [|constructor].
    apply (bool_decide_eq_false_1 ("unknown_field" ∈ fields)). vm_compute.
    reflexivity.
Defined.

Lemma search_unknown_counterexample :
  ¬ spec_unknown_is_empty sample_db
      [("unknown_field", SInt 1); ("rooms", SInt 2)] "AND".
Proof.
  unfold spec_unknown_is_empty, returns_records.
  intros (res & positions & E & _ & Hmem & HF).
  assert (Hres : res = [apt 60 2 10 2 "Akademicheskaya"]).
  { vm_compute in E. injection E as <-. reflexivity. }
  subst res. inversion HF as [|i a ids res' Hi HF']; subst.
  assert (Hin : i ∈ i :: ids) by (by left).
  apply Hmem in Hin. clear -Hin.
  assert (Hempty : bool_decide (default ∅ (spec_fold_ids (bucket sample_db)
            [("unknown_field", SInt 1); ("rooms", SInt 2)] "AND" None) = ∅)
          = true) by (vm_compute; reflexivity).
  apply bool_decide_eq_true_1 in Hempty. rewrite Hempty in Hin.
  by apply not_elem_of_empty in Hin.
Qed.

Lemma loaded_index_consistent db : loaded db → index_consistent db.
Proof.
  intros Hl. apply loaded_inv in Hl as (Hwf & Hc & Hh).
  intros p apartment a v Hp Ha Hv.
  assert (Hk : ∃ k, py_hash v = inr k).
  { unfold stored_hashable in Hh. rewrite Forall_forall in Hh.
    pose proof (Hh apartment (list_elem_of_lookup_2 _ _ _ Hp)) as Hm.
    unfold hashable in Hm. revert Hv. unfold getattr.
    repeat (case_eqb; [intros [= <-]; simpl; eauto|]).
    done. }
  destruct Hk as [k Hk]. exists k. split; [done|].
  assert (Hak : attr_key a apartment = Some k)
    by (unfold attr_key; by rewrite Hv, Hk).
  split.
  - apply Hc. eauto.
  - intros k' Hne Hin. apply Hc in Hin as (x & Hx & Hxk). congruence.
Qed.

(** A load that raises while it converts a record leaves the records before
    that one loaded, and the indices consistent with them. *)
Lemma failed_conversion_index_consistent data db e k apt_data :
  reachable db → snd (load_from_file data db) = inl e →
  data !! k = Some apt_data → Forall accepted (take k data) →
  (∃ e', make_apartment apt_data = inl e') →
  index_consistent (fst (load_from_file data db)).
Proof.
  intros Hr He Hk Hall [e' Hmk].
  pose proof (reachable_inv db Hr) as [Hwf _].
  apply Forall_accepted in Hall as [apts HF].
  assert (Hpre : ∃ dbk, load_from_file (take k data) db = (dbk, inr ())).
  { destruct (load_from_file_cases (take k data) db Hwf)
      as [(dbk & ? & E & _)|(? & e0 & j & r & ? & ? & _ & Hj & _ & _ & _ & Hcase & _)];
      [eauto|].
    exfalso. apply (failing_record_not_accepted r e0).
    - destruct Hcase as [[? _]|(a & ? & ? & _)]; eauto.
    - assert (Hall : Forall accepted (take k data))
        by (apply Forall_accepted; eauto).
      rewrite Forall_forall in Hall. apply Hall.
      by eapply list_elem_of_lookup_2. }
  destruct Hpre as [dbk Ek].
  assert (Hsplit : data = (take k data ++ apt_data :: drop (S k) data)%list)
    by (by rewrite <- (take_drop_middle data k apt_data Hk) at 1).
  assert (E : load_from_file data db = (dbk, inl e')).
  { rewrite Hsplit, load_from_file_eq, load_loop_app.
    rewrite load_from_file_eq in Ek. rewrite (bind_ok _ _ _ _ _ Ek).
    by apply load_loop_cons_err. }
  rewrite E. simpl. apply loaded_index_consistent.
  replace dbk with (fst (load_from_file (take k data) db)) by (by rewrite Ek).
  apply loaded_load; [done|by rewrite Ek].
Qed.

(** X18.  In every state reached by a load that returned normally and any
    searches after it, each record at position [p] and each of the five
    attributes [a] has [p] in the bucket of index [a] for the record's own
    value, and in no bucket of index [a] for another key; a search and a
    further load that returns normally lead to states where this holds
    again. *)
Theorem index_consistency db :
  loaded db →
  index_consistent db ∧
  (∀ criteria operator, index_consistent (fst (search criteria operator db))) ∧
  (∀ data, snd (load_from_file data db) = inr () →
           index_consistent (fst (load_from_file data db))).
Proof.
  intros Hl. split_and!.
  - by apply loaded_index_consistent.
  - intros. by apply loaded_index_consistent, loaded_search.
  - intros data Hok.
    apply loaded_index_consistent, loaded_load;
      [by apply loaded_reachable|done].
Qed.

Lemma index_consistency_witness : index_consistent sample_db.
Proof. exact (proj1 (index_consistency sample_db loaded_sample)). Defined.

(** C3.  Index consistency is not kept by every operation: a load that
    raises on a record whose [metro] is unhashable has already stored the
    record and entered it in the four integer indices.  On the loaded
    sample database, which is index consistent, loading [bad_metro] raises
    [TypeError] and leaves a reachable state where the record at position 0
    is in the [rooms] bucket of its value and in no bucket of the [metro]
    index. *)
Lemma failed_load_breaks_index_consistency :
  index_consistent sample_db ∧
  snd (load_from_file [bad_metro] sample_db) = inl TypeError ∧
  reachable (fst (load_from_file [bad_metro] sample_db)) ∧
  (∃ apartment,
     _apartments (fst (load_from_file [bad_metro] sample_db)) !! 0%nat
     = Some apartment ∧ metro apartment = PList []) ∧
  0%nat ∈ bucket (fst (load_from_file [bad_metro] sample_db)) "rooms" (KInt 3) ∧
  (∀ k, 0%nat ∉ bucket (fst (load_from_file [bad_metro] sample_db)) "metro" k) ∧
  ¬ index_consistent (fst (load_from_file [bad_metro] sample_db)).
Proof.
  assert (Hr : reachable (fst (load_from_file [bad_metro] sample_db)))
    by apply reachable_load, reachable_sample.
  pose proof (reachable_inv _ Hr) as [_ Hc].
  assert (H0 : _apartments (fst (load_from_file [bad_metro] sample_db)) !! 0%nat
               = Some {| total_area := 75; rooms := 3; kitchen_area := 12;
                         balconies := 1; metro := PList [] |})
    by (vm_compute; reflexivity).
  split_and!.
  - apply loaded_index_consistent, loaded_sample.
  - vm_compute. reflexivity.
  - done.
  - eexists. split; [exact H0|done].
  - apply Hc. eexists. split; [exact H0|done].
  - intros k Hin. apply Hc in Hin as (x & Hx & Hk).
    rewrite H0 in Hx. injection Hx as <-. discriminate.
  - intros Hic.
    assert (Hf : "metro" ∈ fields)
      by (apply (bool_decide_unpack _); vm_compute; exact I).
    destruct (Hic 0%nat _ "metro" (PList []) H0 Hf eq_refl) as (k & Hk & _).
    discriminate.
Qed.

Lemma search_ids_pair db f1 v1 f2 v2 operator :
  wf db → f1 ∈ fields → f2 ∈ fields →
  search_ids [(f1, v1); (f2, v2)] operator db
  = if String.eqb operator "AND"
    then bucket db f1 (key_of v1) ∩ bucket db f2 (key_of v2)
    else bucket db f1 (key_of v1) ∪ bucket db f2 (key_of v2).
Proof.
  intros Hwf H1 H2. rewrite search_ids_fold by done. simpl.
  rewrite !bool_decide_eq_true_2 by done. simpl.
  by destruct (String.eqb operator "AND").
Qed.

(** C4.  In any reachable state, for two recognised criteria on different
    attributes (the keys of a mapping are distinct), the identifiers that
    [search] selects for both under AND are the intersection of those it
    selects for each alone, which are the two buckets; each of the three
    calls returns the records at its identifiers in ascending order. *)
Theorem search_and db f1 v1 f2 v2 :
  reachable db → f1 ∈ fields → f2 ∈ fields → f1 ≠ f2 →
  let s1 := search_ids [(f1, v1)] "AND" db in
  let s2 := search_ids [(f2, v2)] "AND" db in
  s1 = bucket db f1 (key_of v1) ∧ s2 = bucket db f2 (key_of v2) ∧
  returns_records db (snd (search [(f1, v1)] "AND" db)) s1 ∧
  returns_records db (snd (search [(f2, v2)] "AND" db)) s2 ∧
  search_ids [(f1, v1); (f2, v2)] "AND" db = s1 ∩ s2 ∧
  returns_records db (snd (search [(f1, v1); (f2, v2)] "AND" db)) (s1 ∩ s2).
Proof.
  intros Hr H1 H2 _ s1 s2. apply reachable_inv in Hr as [Hwf Hc].
  assert (E1 : s1 = bucket db f1 (key_of v1)) by by apply search_ids_single.
  assert (E2 : s2 = bucket db f2 (key_of v2)) by by apply search_ids_single.
  assert (E : search_ids [(f1, v1); (f2, v2)] "AND" db = s1 ∩ s2).
  { rewrite search_ids_pair by done. simpl. by rewrite E1, E2. }
  split_and!; try done; try (by apply search_returns).
  rewrite <- E. by apply search_returns.
Qed.

Lemma search_and_witness :
  returns_records sample_db
    (snd (search [("balconies", SInt 2); ("metro", SStr "Politekhnicheskaya")]
            "AND" sample_db))
    (search_ids [("balconies", SInt 2)] "AND" sample_db
     ∩ search_ids [("metro", SStr "Politekhnicheskaya")] "AND" sample_db).
Proof.
  refine (proj2 (proj2 (proj2 (proj2 (proj2
    (search_and sample_db "balconies" (SInt 2) "metro"
       (SStr "Politekhnicheskaya") reachable_sample _ _ _)))))).
  - apply (bool_decide_unpack _). vm_compute. exact I.
  - apply (bool_decide_unpack _). vm_compute. exact I.
  - discriminate.
Defined.

(** C5.  In any reachable state, for two recognised criteria on different
    attributes, the identifiers that [search] selects for both under OR are
    the union of those it selects for each alone, which are the two buckets;
    each of the three calls returns the records at its identifiers in
    ascending order. *)
Theorem search_or db f1 v1 f2 v2 :
  reachable db → f1 ∈ fields → f2 ∈ fields → f1 ≠ f2 →
  let s1 := search_ids [(f1, v1)] "OR" db in
  let s2 := search_ids [(f2, v2)] "OR" db in
  s1 = bucket db f1 (key_of v1) ∧ s2 = bucket db f2 (key_of v2) ∧
  returns_records db (snd (search [(f1, v1)] "OR" db)) s1 ∧
  returns_records db (snd (search [(f2, v2)] "OR" db)) s2 ∧
  search_ids [(f1, v1); (f2, v2)] "OR" db = s1 ∪ s2 ∧
  returns_records db (snd (search [(f1, v1); (f2, v2)] "OR" db)) (s1 ∪ s2).
Proof.
  intros Hr H1 H2 _ s1 s2. apply reachable_inv in Hr as [Hwf Hc].
  assert (E1 : s1 = bucket db f1 (key_of v1)) by by apply search_ids_single.
  assert (E2 : s2 = bucket db f2 (key_of v2)) by by apply search_ids_single.
  assert (E : search_ids [(f1, v1); (f2, v2)] "OR" db = s1 ∪ s2).
  { rewrite search_ids_pair by done. simpl. by rewrite E1, E2. }
  split_and!; try done; try (by apply search_returns).
  rewrite <- E. by apply search_returns.
Qed.

Lemma search_or_witness :
  returns_records sample_db
    (snd (search [("total_area", SInt 75); ("balconies", SInt 2)]
            "OR" sample_db))
    (search_ids [("total_area", SInt 75)] "OR" sample_db
     ∪ search_ids [("balconies", SInt 2)] "OR" sample_db).
Proof.
  refine (proj2 (proj2 (proj2 (proj2 (proj2
    (search_or sample_db "total_area" (SInt 75) "balconies" (SInt 2)
       reachable_sample _ _ _)))))).
  - apply (bool_decide_unpack _). vm_compute. exact I.
  - apply (bool_decide_unpack _). vm_compute. exact I.
  - discriminate.
Defined.

(** C6.  In any reachable state, for every criteria sequence and operator,
    [search] returns the records at the selected positions listed in
    strictly ascending order, and the returned list is a subsequence of the
    store, that is, the records come in the order they were inserted. *)
Theorem search_ascending db criteria operator :
  reachable db →
  ∃ res positions,
    snd (search criteria operator db) = inr res ∧
    StronglySorted lt positions ∧
    (∀ i, i ∈ positions ↔ i ∈ search_ids criteria operator db) ∧
    Forall2 (fun i a => _apartments db !! i = Some a) positions res ∧
    res `sublist_of` _apartments db.
Proof.
  intros Hr. apply reachable_inv in Hr as [Hwf Hc].
  destruct (search_returns db criteria operator Hwf Hc)
    as (res & positions & E & Hs & Hm & HF).
  exists res, positions. split_and!; try done.
  by eapply getitems_sublist.
Qed.

Lemma search_ascending_witness :
  ∃ res positions,
    snd (search [("total_area", SInt 75); ("balconies", SInt 2)] "OR" sample_db)
    = inr res ∧
    StronglySorted lt positions ∧
    (∀ i, i ∈ positions ↔
          i ∈ search_ids [("total_area", SInt 75); ("balconies", SInt 2)]
                "OR" sample_db) ∧
    Forall2 (fun i a => _apartments sample_db !! i = Some a) positions res ∧
    res `sublist_of` _apartments sample_db.
Proof.
  exact (search_ascending sample_db
           [("total_area", SInt 75); ("balconies", SInt 2)] "OR"
           (reachable_load sample_data __init__ reachable_init)).
Defined.

(** C7.  In every state and for every operator, [search] with no criteria
    returns the empty list and leaves the database as it is. *)
Theorem search_empty_criteria db operator :
  search [] operator db = (db, inr []).
Proof. reflexivity. Qed.

Lemma consistent_bucket_eq db1 db2 :
  consistent db1 → consistent db2 → _apartments db1 = _apartments db2 →
  ∀ a k, bucket db1 a k = bucket db2 a k.
Proof.
  intros H1 H2 Ha a k. apply set_eq. intros p.
  by rewrite (H1 a k p), (H2 a k p), Ha.
Qed.

Lemma search_snd_eq db1 db2 criteria operator :
  wf db1 → wf db2 → consistent db1 → consistent db2 →
  _apartments db1 = _apartments db2 →
  snd (search criteria operator db1) = snd (search criteria operator db2).
Proof.
  intros Hw1 Hw2 H1 H2 Ha.
  rewrite !search_snd, !search_ids_fold, Ha by done.
  by rewrite (fold_ids_ext _ _ _ _ _ (consistent_bucket_eq db1 db2 H1 H2 Ha)).
Qed.

Lemma loads_as_functional data : ∀ apts1 apts2,
  Forall2 loads_as data apts1 → Forall2 loads_as data apts2 → apts1 = apts2.
Proof.
  induction data as [|r data IH]; intros apts1 apts2 H1 H2.
  - apply Forall2_nil_inv_l in H1, H2. congruence.
  - apply Forall2_cons_inv_l in H1 as (a1 & t1 & [E1 _] & H1 & ->).
    apply Forall2_cons_inv_l in H2 as (a2 & t2 & [E2 _] & H2 & ->).
    f_equal; [congruence|by apply IH].
Qed.

(** C8.  When a load of [data] returns normally, a second load of the same
    [data] returns normally too, and every query has the same result after
    the second load as after the first. *)
Theorem reload_idempotent data db db1 :
  reachable db → load_from_file data db = (db1, inr ()) →
  ∃ db2, load_from_file data db1 = (db2, inr ()) ∧
    ∀ criteria operator,
      snd (search criteria operator db2) = snd (search criteria operator db1).
Proof.
  intros Hr E1. apply reachable_inv in Hr as [Hwf _].
  destruct (load_from_file_cases data db Hwf)
    as [(db1' & apts & E & HF & Ha & Hwf1 & Hc1)|(? & ? & ? & ? & ? & ? & E & _)];
    rewrite E1 in E; [|done].
  injection E as <-.
  destruct (load_from_file_cases data db1 Hwf1)
    as [(db2 & apts2 & E2 & HF2 & Ha2 & Hwf2 & Hc2)
       |(db2 & e & k & r & dbk & apts2 & E2 & Hk & _ & _ & _ & Hcase & _)].
  - exists db2. split; [done|]. intros criteria operator.
    apply search_snd_eq; try done.
    rewrite Ha, Ha2. by eapply loads_as_functional.
  - exfalso. apply (failing_record_not_accepted r e).
    + destruct Hcase as [[? _]|(a & ? & ? & _)]; eauto.
    + assert (Hall : Forall accepted data) by (apply Forall_accepted; eauto).
      rewrite Forall_forall in Hall. apply Hall. by eapply list_elem_of_lookup_2.
Qed.

Lemma reload_idempotent_witness :
  ∃ db2, load_from_file sample_data sample_db = (db2, inr ()) ∧
    ∀ criteria operator,
      snd (search criteria operator db2)
      = snd (search criteria operator sample_db).
Proof.
  apply (reload_idempotent sample_data __init__ sample_db reachable_init).
  vm_compute. reflexivity.
Defined.

(** C9.  In every state reached by a load that returned normally and any
    searches after it, every position held by a bucket of an index is below
    the length of the store, and no call of [search] ends in an
    [IndexError]: it returns normally. *)
Theorem search_positions_in_range db :
  loaded db →
  (∀ a index k l s p,
     _indices db !! a = Some index → index !! k = Some l →
     objects db !! l = Some s → p ∈ s →
     (p < length (_apartments db))%nat) ∧
  (∀ criteria operator,
     snd (search criteria operator db) ≠ inl IndexError ∧
     ∃ res, snd (search criteria operator db) = inr res).
Proof.
  intros Hl. apply loaded_inv in Hl as (Hwf & Hc & _). split.
  - intros a index k l s p Hi Hk Ho Hp.
    apply (consistent_bound db a k p Hc).
    unfold bucket, bucket_ref. by rewrite Hi, Hk, Ho.
  - intros criteria operator.
    destruct (search_result db criteria operator Hwf Hc) as (res & E & _).
    rewrite E. split; [done|eauto].
Qed.

Lemma search_positions_in_range_witness :
  snd (search [("rooms", SInt 2); ("metro", SStr "Akademicheskaya")]
         "AND" sample_db) ≠ inl IndexError ∧
  ∃ res, snd (search [("rooms", SInt 2); ("metro", SStr "Akademicheskaya")]
                "AND" sample_db) = inr res.
Proof.
  refine (proj2 (search_positions_in_range sample_db _)
            [("rooms", SInt 2); ("metro", SStr "Akademicheskaya")] "AND").
  apply loaded_load; [apply reachable_init|]. vm_compute. reflexivity.
Defined.

(** C10.  In any reachable state, for every criteria sequence and every
    operator string, [search] leaves the store and the index dicts as they
    were and changes no set object that existed before the call: every
    bucket is the same object with the same contents. *)
Theorem search_read_only db criteria operator :
  reachable db →
  let db' := fst (search criteria operator db) in
  _apartments db' = _apartments db ∧
  _indices db' = _indices db ∧
  (∀ l, l ∈ dom (objects db) → objects db' !! l = objects db !! l) ∧
  (∀ a k, bucket_ref db' a k = bucket_ref db a k ∧
          bucket db' a k = bucket db a k).
Proof.
  intros Hr db'. apply reachable_inv in Hr as [Hwf Hc].
  destruct (search_spec criteria operator db Hwf) as (db'' & E & He).
  subst db'. rewrite E. simpl.
  pose proof He as (Ha & Hi & Hd & Ho).
  split_and!; auto.
  intros a k. split.
  - by eapply extends_bucket_ref.
  - by apply (extends_bucket db db'' None a k Hwf (private_None db)).
Qed.

Lemma search_read_only_witness :
  _indices (fst (search [("balconies", SInt 2); ("metro", SStr "Politekhnicheskaya")]
                   "AND" sample_db))
  = _indices sample_db.
Proof.
  exact (proj1 (proj2 (search_read_only sample_db
    [("balconies", SInt 2); ("metro", SStr "Politekhnicheskaya")] "AND"
    (reachable_load sample_data __init__ reachable_init)))).
Defined.

(** ** Further properties of the code *)

Lemma fold_ids_and_Some bk items : ∀ r p,
  p ∈ default ∅ (fold_ids bk items "AND" (Some r)) ↔
  p ∈ r ∧ ∀ c, c ∈ items → c.1 ∈ fields → p ∈ bk c.1 (key_of c.2).
Proof.
  induction items as [|[f v] rest IH]; intros r p; simpl.
  - split; [intros H; split; [done|]; intros c Hc; by apply elem_of_nil in Hc
           |by intros [? _]].
  - case_bool_decide as Hf.
    + rewrite IH, elem_of_intersection. split.
      * intros [[Hr Hb] Hall]. split; [done|]. intros c Hc Hcf.
        apply elem_of_cons in Hc as [->|Hc]; [done|by apply Hall].
      * intros [Hr Hall]. split; [split; [done|]|].
        -- apply (Hall (f, v)); [by left|done].
        -- intros c Hc. apply Hall. by right.
    + rewrite IH. split.
      * intros [Hr Hall]. split; [done|]. intros c Hc Hcf.
        apply elem_of_cons in Hc as [->|Hc]; [done|by apply Hall].
      * intros [Hr Hall]. split; [done|]. intros c Hc. apply Hall. by right.
Qed.

Lemma fold_ids_and_None bk items p :
  p ∈ default ∅ (fold_ids bk items "AND" None) ↔
  (∃ c, c ∈ items ∧ c.1 ∈ fields) ∧
  ∀ c, c ∈ items → c.1 ∈ fields → p ∈ bk c.1 (key_of c.2).
Proof.
  induction items as [|[f v] rest IH]; simpl.
  - split; [set_solver|]. intros [(c & Hc & _) _]. by apply elem_of_nil in Hc.
  - case_bool_decide as Hf.
    + rewrite fold_ids_and_Some. split.
      * intros [Hb Hall]. split; [exists (f, v); split; [by left|done]|].
        intros c Hc Hcf. apply elem_of_cons in Hc as [->|Hc]; [done|by apply Hall].
      * intros [_ Hall]. split; [apply (Hall (f, v)); [by left|done]|].
        intros c Hc. apply Hall. by right.
    + rewrite IH. split.
      * intros [(c & Hc & Hcf) Hall]. split; [exists c; split; [by right|done]|].
        intros c' Hc' Hcf'.
        apply elem_of_cons in Hc' as [->|Hc']; [done|by apply Hall].
      * intros [(c & Hc & Hcf) Hall]. split.
        -- apply elem_of_cons in Hc as [->|Hc]; [done|eauto].
        -- intros c' Hc'. apply Hall. by right.
Qed.

Lemma fold_ids_or_Some bk items operator : String.eqb operator "AND" = false →
  ∀ r p,
  p ∈ default ∅ (fold_ids bk items operator (Some r)) ↔
  p ∈ r ∨ ∃ c, c ∈ items ∧ c.1 ∈ fields ∧ p ∈ bk c.1 (key_of c.2).
Proof.
  intros Hop. induction items as [|[f v] rest IH]; intros r p; simpl.
  - split; [by left|]. intros [?|(c & Hc & _)]; [done|by apply elem_of_nil in Hc].
  - case_bool_decide as Hf.
    + rewrite Hop, IH, elem_of_union. split.
      * intros [[Hr|Hb]|(c & Hc & Hcf & Hp)]; [by left| |].
        -- right. exists (f, v). split; [by left|done].
        -- right. exists c. split; [by right|done].
      * intros [Hr|(c & Hc & Hcf & Hp)]; [by left; left|].
        apply elem_of_cons in Hc as [->|Hc]; [by left; right|].
        right. eauto.
    + rewrite IH. split.
      * intros [Hr|(c & Hc & Hcf & Hp)]; [by left|].
        right. exists c. split; [by right|done].
      * intros [Hr|(c & Hc & Hcf & Hp)]; [by left|].
        apply elem_of_cons in Hc as [->|Hc]; [done|]. right. eauto.
Qed.

Lemma fold_ids_or_None bk items operator p :
  String.eqb operator "AND" = false →
  p ∈ default ∅ (fold_ids bk items operator None) ↔
  ∃ c, c ∈ items ∧ c.1 ∈ fields ∧ p ∈ bk c.1 (key_of c.2).
Proof.
  intros Hop. induction items as [|[f v] rest IH]; simpl.
  - split; [set_solver|]. intros (c & Hc & _). by apply elem_of_nil in Hc.
  - case_bool_decide as Hf.
    + rewrite (fold_ids_or_Some _ _ _ Hop). split.
      * intros [Hb|(c & Hc & Hcf & Hp)].
        -- exists (f, v). split; [by left|done].
        -- exists c. split; [by right|done].
      * intros (c & Hc & Hcf & Hp).
        apply elem_of_cons in Hc as [->|Hc]; [by left|]. right. eauto.
    + rewrite IH. split.
      * intros (c & Hc & Hcf & Hp). exists c. split; [by right|done].
      * intros (c & Hc & Hcf & Hp).
        apply elem_of_cons in Hc as [->|Hc]; [done|]. eauto.
Qed.

Lemma lookups_filter (P : Apartment → Prop) `{!∀ a, Decision (P a)}
    (l : list Apartment) : ∀ n positions res,
  StronglySorted lt positions →
  (∀ i, i ∈ positions ↔ (n ≤ i)%nat ∧ ∃ a, l !! (i - n)%nat = Some a ∧ P a) →
  Forall2 (fun i a => l !! (i - n)%nat = Some a) positions res →
  res = filter P l.
Proof.
  induction l as [|x l IH]; intros n positions res Hs Hm HF.
  - destruct HF as [|i a positions res Hi _]; [done|done].
  - assert (Hshift : ∀ j, (n < j)%nat → (x :: l) !! (j - n)%nat = l !! (j - S n)%nat).
    { intros j Hj. by replace (j - n)%nat with (S (j - S n)) by lia. }
    rewrite filter_cons. destruct (decide (P x)) as [HP|HP].
    + assert (Hn : n ∈ positions).
      { apply Hm. split; [done|]. exists x. by rewrite Nat.sub_diag. }
      destruct HF as [|i y positions res Hi HF]; [by apply elem_of_nil in Hn|].
      apply StronglySorted_inv in Hs as [Hs Hlt]. rewrite Forall_forall in Hlt.
      assert (i = n) as ->.
      { apply elem_of_cons in Hn as [->|Hn]; [done|].
        specialize (Hlt n Hn).
        assert (n ≤ i)%nat by (apply Hm; by left). lia. }
      rewrite Nat.sub_diag in Hi. injection Hi as ->. f_equal.
      apply (IH (S n) positions res Hs).
      * intros i. split.
        -- intros Hi. pose proof (Hlt i Hi) as Hni.
           assert (Hin : i ∈ n :: positions) by by right.
           apply Hm in Hin as [_ (a & Ha & HPa)].
           split; [lia|]. exists a. by rewrite <- Hshift.
        -- intros [Hle (a & Ha & HPa)].
           assert (Hin : i ∈ n :: positions).
           { apply Hm. split; [lia|]. exists a. by rewrite Hshift. }
           apply elem_of_cons in Hin as [->|Hin]; [lia|done].
      * eapply Forall2_impl_Forall; [exact HF|apply Forall_forall, Hlt|].
        simpl. intros j b Hj Hb. by rewrite <- Hshift.
    + assert (Hgt : Forall (fun i => n < i)%nat positions).
      { apply Forall_forall. intros i Hi. apply Hm in Hi as [Hle (a & Ha & HPa)].
        destruct (decide (i = n)) as [->|]; [|lia].
        rewrite Nat.sub_diag in Ha. injection Ha as ->. done. }
      apply (IH (S n) positions res Hs).
      * intros i. split.
        -- intros Hi. rewrite Forall_forall in Hgt. pose proof (Hgt i Hi).
           apply Hm in Hi as [_ (a & Ha & HPa)].
           split; [lia|]. exists a. by rewrite <- Hshift.
        -- intros [Hle (a & Ha & HPa)]. apply Hm. split; [lia|].
           exists a. by rewrite Hshift.
      * eapply Forall2_impl_Forall; [exact HF|exact Hgt|].
        simpl. intros j b Hj Hb. by rewrite <- Hshift.
Qed.

(** A query returns the records at the selected positions: when these are
    the positions of the records with a property, the result is the store
    filtered by it. *)
Lemma search_filter (P : Apartment → Prop) `{!∀ a, Decision (P a)}
    db criteria operator :
  wf db → consistent db →
  (∀ i, i ∈ search_ids criteria operator db ↔
        ∃ a, _apartments db !! i = Some a ∧ P a) →
  snd (search criteria operator db) = inr (filter P (_apartments db)).
Proof.
  intros Hwf Hc Hm.
  destruct (search_returns db criteria operator Hwf Hc)
    as (res & positions & E & Hs & Hmem & HF).
  rewrite E. f_equal. apply (lookups_filter P (_apartments db) 0%nat positions).
  - done.
  - intros i. rewrite Hmem, Hm. rewrite Nat.sub_0_r. split; [|tauto].
    intros Hex. split; [lia|done].
  - eapply Forall2_impl; [exact HF|]. simpl. intros i a. by rewrite Nat.sub_0_r.
Qed.

Lemma matches_spec apartment c :
  matches apartment c = true ↔ attr_key c.1 apartment = Some (key_of c.2).
Proof. unfold matches. apply bool_decide_eq_true. Qed.

Lemma matches_field apartment c : matches apartment c = true → c.1 ∈ fields.
Proof.
  rewrite matches_spec. unfold attr_key, getattr.
  repeat (case_eqb; [intros _; unfold fields; set_solver|]). done.
Qed.

Lemma matches_all_spec criteria apartment :
  matches_all criteria apartment = true ↔
  ∀ c, c ∈ criteria → c.1 ∈ fields →
       attr_key c.1 apartment = Some (key_of c.2).
Proof.
  unfold matches_all. rewrite forallb_forall. split.
  - intros H c Hc Hf. apply list_elem_of_In in Hc. specialize (H c Hc).
    unfold recognised in H. rewrite bool_decide_eq_true_2 in H by done.
    by apply matches_spec.
  - intros H c Hc. apply list_elem_of_In in Hc. unfold recognised.
    case_bool_decide; [|done]. simpl. apply matches_spec. by apply H.
Qed.

Lemma matches_any_spec criteria apartment :
  matches_any criteria apartment = true ↔
  ∃ c, c ∈ criteria ∧ c.1 ∈ fields ∧
       attr_key c.1 apartment = Some (key_of c.2).
Proof.
  unfold matches_any. rewrite existsb_exists. split.
  - intros (c & Hc & Hm). exists c. apply list_elem_of_In in Hc.
    split; [done|]. split; [by eapply matches_field|by apply matches_spec].
  - intros (c & Hc & _ & Hm). exists c. split; [by apply list_elem_of_In|].
    by apply matches_spec.
Qed.

(** X10.  In any reachable state, a query under AND with at least one
    recognised criterion returns exactly what a scan of the store gives:
    the records, in store order, whose attribute equals the value for every
    recognised criterion. *)
Theorem search_and_scan db criteria :
  reachable db → Exists (fun c => c.1 ∈ fields) criteria →
  snd (search criteria "AND" db)
  = inr (filter (fun a => matches_all criteria a = true) (_apartments db)).
Proof.
  intros Hr Hex. apply reachable_inv in Hr as [Hwf Hc].
  apply search_filter; [done|done|]. intros i.
  rewrite search_ids_fold, fold_ids_and_None by done.
  setoid_rewrite matches_all_spec. split.
  - intros [(c0 & Hc0 & Hf0) Hall].
    pose proof (Hall c0 Hc0 Hf0) as H0. apply Hc in H0 as (a & Ha & _).
    exists a. split; [done|]. intros c Hcin Hf.
    apply Hall in Hcin; [|done]. apply Hc in Hcin as (a' & Ha' & Hk).
    congruence.
  - intros (a & Ha & Hall). split.
    + apply Exists_exists in Hex as (c & Hcin & Hf). eauto.
    + intros c Hcin Hf. apply Hc. eauto.
Qed.

Lemma search_and_scan_witness :
  snd (search [("balconies", SInt 2); ("metro", SStr "Politekhnicheskaya")]
         "AND" sample_db)
  = inr (filter
           (fun a => matches_all
                       [("balconies", SInt 2); ("metro", SStr "Politekhnicheskaya")]
                       a = true)
           (_apartments sample_db)).
Proof.
  apply (search_and_scan sample_db
           [("balconies", SInt 2); ("metro", SStr "Politekhnicheskaya")]
           reachable_sample).
  apply Exists_cons_hd. apply (bool_decide_unpack _). vm_compute. exact I.
Defined.

(** X11.  In any reachable state, a query under any operator string other
    than ["AND"] (["OR"], but also ["and"] or a misspelling) returns exactly
    what a scan of the store gives: the records, in store order, whose
    attribute equals the value for at least one criterion. *)
Theorem search_or_scan db criteria operator :
  reachable db → operator ≠ "AND" →
  snd (search criteria operator db)
  = inr (filter (fun a => matches_any criteria a = true) (_apartments db)).
Proof.
  intros Hr Hop. apply reachable_inv in Hr as [Hwf Hc].
  assert (Hop' : String.eqb operator "AND" = false) by by apply String.eqb_neq.
  apply search_filter; [done|done|]. intros i.
  rewrite search_ids_fold, (fold_ids_or_None _ _ _ _ Hop') by done.
  setoid_rewrite matches_any_spec. split.
  - intros (c & Hcin & Hf & Hp). apply Hc in Hp as (a & Ha & Hk). eauto 10.
  - intros (a & Ha & c & Hcin & Hf & Hk). exists c. split; [done|].
    split; [done|]. apply Hc. eauto.
Qed.

Lemma search_or_scan_witness :
  snd (search [("total_area", SInt 75); ("balconies", SInt 2)] "and" sample_db)
  = inr (filter
           (fun a => matches_any
                       [("total_area", SInt 75); ("balconies", SInt 2)] a = true)
           (_apartments sample_db)).
Proof.
  apply (search_or_scan sample_db
           [("total_area", SInt 75); ("balconies", SInt 2)] "and"
           reachable_sample).
  discriminate.
Defined.

Lemma search_ids_perm db criteria criteria' operator :
  wf db → criteria ≡ₚ criteria' →
  search_ids criteria operator db = search_ids criteria' operator db.
Proof.
  intros Hwf Hp. rewrite !search_ids_fold by done. apply set_eq. intros i.
  destruct (String.eqb operator "AND") eqn:Hop.
  - apply String.eqb_eq in Hop as ->. rewrite !fold_ids_and_None.
    by setoid_rewrite Hp.
  - rewrite !(fold_ids_or_None _ _ _ _ Hop). by setoid_rewrite Hp.
Qed.

(** X12.  In any reachable state the result of a query does not depend on
    the order in which the mapping lists its criteria. *)
Theorem search_criteria_order db criteria criteria' operator :
  reachable db → criteria ≡ₚ criteria' →
  snd (search criteria operator db) = snd (search criteria' operator db).
Proof.
  intros Hr Hp. apply reachable_inv in Hr as [Hwf Hc].
  by rewrite !search_snd, (search_ids_perm db criteria criteria') by done.
Qed.

Lemma search_criteria_order_witness :
  snd (search [("balconies", SInt 2); ("metro", SStr "Politekhnicheskaya")]
         "AND" sample_db)
  = snd (search [("metro", SStr "Politekhnicheskaya"); ("balconies", SInt 2)]
           "AND" sample_db).
Proof.
  apply (search_criteria_order sample_db _ _ "AND" reachable_sample).
  apply perm_swap.
Defined.

(** X13.  In any reachable state a query gives the same result whether or
    not another query ran before it. *)
Theorem search_after_search db criteria operator criteria' operator' :
  reachable db →
  snd (search criteria operator (fst (search criteria' operator' db)))
  = snd (search criteria operator db).
Proof.
  intros Hr. apply reachable_inv in Hr as [Hwf Hc].
  destruct (search_spec criteria' operator' db Hwf) as (db' & E & He).
  rewrite E. simpl. apply search_snd_eq.
  - by eapply extends_wf.
  - done.
  - by eapply extends_consistent.
  - done.
  - by destruct He as (-> & _).
Qed.

Lemma search_after_search_witness :
  snd (search [("rooms", SInt 2)] "AND"
         (fst (search [("metro", SStr "Akademicheskaya")] "OR" sample_db)))
  = snd (search [("rooms", SInt 2)] "AND" sample_db).
Proof.
  exact (search_after_search sample_db [("rooms", SInt 2)] "AND"
           [("metro", SStr "Akademicheskaya")] "OR" reachable_sample).
Defined.

(** X14.  In any reachable state with an empty store (a new database, or
    after a load that raised on its first record) every query returns the
    empty list. *)
Theorem search_empty_store db criteria operator :
  reachable db → _apartments db = [] →
  snd (search criteria operator db) = inr [].
Proof.
  intros Hr He. apply reachable_inv in Hr as [Hwf Hc].
  destruct (search_returns db criteria operator Hwf Hc)
    as (res & positions & E & _ & _ & HF).
  rewrite E. f_equal. rewrite He in HF.
  destruct HF as [|i a positions res Hi _]; [done|done].
Qed.

Lemma search_empty_store_witness :
  snd (search [("rooms", SInt 2)] "AND" __init__) = inr [].
Proof.
  apply (search_empty_store __init__ [("rooms", SInt 2)] "AND" reachable_init).
  reflexivity.
Defined.

Lemma add_to_index_refs index_name key k i db :
  wf db → index_name ∈ fields → py_hash key = inr k →
  ∀ a' k',
    is_Some (bucket_ref (fst (_add_to_index index_name key i db)) a' k') ↔
    is_Some (bucket_ref db a' k') ∨ (a' = index_name ∧ k' = k).
Proof.
  intros Hwf Hf Hk a' k'.
  destruct (proj2 (wf_is_field db index_name Hwf) Hf) as [index Hi].
  unfold _add_to_index, bind, getitem_indices, lift. rewrite Hi, Hk.
  destruct (index !! k) as [l|] eqn:Hl.
  - unfold ret. rewrite Hi, Hl. unfold set_update, bucket_ref. simpl.
    split; [by left|]. intros [H|[-> ->]]; [done|]. rewrite Hi, Hl. eauto.
  - unfold new_set, setitem_index; simpl. rewrite Hi. simpl.
    rewrite lookup_insert_eq, lookup_insert_eq. unfold set_update, bucket_ref.
    simpl. destruct (decide (a' = index_name)) as [->|Hne].
    + rewrite lookup_insert_eq, Hi. destruct (decide (k' = k)) as [->|Hnk].
      * rewrite lookup_insert_eq. split; [by right|eauto].
      * rewrite lookup_insert_ne by done. split; [by left|].
        intros [H|[_ ->]]; done.
    + rewrite lookup_insert_ne by done. split; [by left|].
      intros [H|[-> _]]; done.
Qed.

Lemma add_to_index_populated index_name key k i db :
  wf db → populated db → index_name ∈ fields → py_hash key = inr k →
  ∃ db', _add_to_index index_name key i db = (db', inr ()) ∧ wf db' ∧
         populated db'.
Proof.
  intros Hwf Hp Hf Hk.
  destruct (add_to_index_ok index_name key k i db Hwf Hf Hk)
    as (db' & E & Hwf' & _ & Hb).
  exists db'. split; [done|]. split; [done|]. intros a' k' Hs.
  pose proof (add_to_index_refs index_name key k i db Hwf Hf Hk a' k') as Hr.
  rewrite E in Hr. simpl in Hr. apply Hr in Hs. rewrite Hb.
  destruct Hs as [Hs|[-> ->]].
  - apply Hp in Hs. set_solver.
  - rewrite decide_True by done. set_solver.
Qed.

Lemma add_apartment_populated apartment db :
  wf db → populated db → populated (fst (_add_apartment apartment db)).
Proof.
  intros Hwf Hp. unfold _add_apartment.
  set (db0 := {| _apartments := _apartments db ++ [apartment];
                 _indices := _indices db; objects := objects db |}).
  assert (Hwf0 : wf db0) by (destruct Hwf; by split).
  assert (Hp0 : populated db0) by done.
  set (i := length (_apartments db)).
  destruct (add_to_index_populated "total_area" (SInt (total_area apartment)) _ i db0
              Hwf0 Hp0 ltac:(unfold fields; set_solver) eq_refl)
    as (db1 & E1 & Hwf1 & Hp1).
  destruct (add_to_index_populated "rooms" (SInt (rooms apartment)) _ i db1
              Hwf1 Hp1 ltac:(unfold fields; set_solver) eq_refl)
    as (db2 & E2 & Hwf2 & Hp2).
  destruct (add_to_index_populated "kitchen_area" (SInt (kitchen_area apartment)) _ i db2
              Hwf2 Hp2 ltac:(unfold fields; set_solver) eq_refl)
    as (db3 & E3 & Hwf3 & Hp3).
  destruct (add_to_index_populated "balconies" (SInt (balconies apartment)) _ i db3
              Hwf3 Hp3 ltac:(unfold fields; set_solver) eq_refl)
    as (db4 & E4 & Hwf4 & Hp4).
  unfold bind. fold db0. fold i. rewrite E1, E2, E3, E4.
  destruct (py_hash (metro apartment)) as [e|km] eqn:Hm.
  - rewrite (add_to_index_err "metro" (metro apartment) i db4 e); [done| |done].
    apply (wf_is_field db4 "metro" Hwf4). unfold fields; set_solver.
  - destruct (add_to_index_populated "metro" (metro apartment) km i db4
                Hwf4 Hp4 ltac:(unfold fields; set_solver) Hm)
      as (db5 & E5 & _ & Hp5).
    by rewrite E5.
Qed.

Lemma load_loop_populated data : ∀ db,
  wf db → populated db → populated (fst (load_loop data db)).
Proof.
  induction data as [|r data IH]; intros db Hwf Hp; [done|].
  destruct (make_apartment r) as [e|apartment] eqn:Hr.
  { by rewrite (load_loop_cons_err _ _ _ _ Hr). }
  rewrite (load_loop_cons_ok _ _ _ _ Hr).
  pose proof (add_apartment_populated apartment db Hwf Hp) as Hp1.
  destruct (add_apartment_spec apartment db Hwf) as (db1 & E1 & Hwf1 & _).
  rewrite E1 in Hp1. simpl in Hp1.
  destruct (py_hash (metro apartment)).
  - by rewrite (bind_err _ _ _ _ _ E1).
  - rewrite (bind_ok _ _ _ _ _ E1). by apply IH.
Qed.

Lemma reachable_populated db : reachable db → populated db.
Proof.
  induction 1 as [|data db Hr IH|criteria operator db Hr IH].
  - intros a k. unfold bucket_ref, __init__; simpl.
    repeat (rewrite lookup_insert; case_decide;
            [rewrite lookup_empty; by intros [? ?]|]).
    rewrite lookup_empty. by intros [? ?].
  - apply reachable_inv in Hr as [Hwf _]. rewrite load_from_file_eq.
    apply load_loop_populated; [by apply wf_cleared, (wf_fields _ Hwf)|].
    intros a k. rewrite bucket_ref_cleared. by intros [? ?].
  - apply reachable_inv in Hr as [Hwf _].
    destruct (search_spec criteria operator db Hwf) as (db' & E & He).
    rewrite E. simpl. intros a k.
    rewrite (extends_bucket_ref _ _ _ _ _ He),
            (extends_bucket db db' None a k Hwf (private_None db) He).
    apply IH.
Qed.

(** X1.  On a database that satisfies the object-store invariant,
    [_add_to_index] with one of the five index names and a hashable key
    returns normally: the position is added to the bucket of that key, which
    is created when the index has none, every other bucket keeps its
    contents, no bucket appears or disappears elsewhere, the store is
    untouched and the invariant holds again. *)
Theorem add_to_index_inserts index_name key k i db :
  wf db → index_name ∈ fields → py_hash key = inr k →
  ∃ db', _add_to_index index_name key i db = (db', inr ()) ∧
    wf db' ∧ _apartments db' = _apartments db ∧
    bucket db' index_name k = bucket db index_name k ∪ {[i]} ∧
    (∀ a' k', (a', k') ≠ (index_name, k) → bucket db' a' k' = bucket db a' k') ∧
    (∀ a' k', is_Some (bucket_ref db' a' k') ↔
              is_Some (bucket_ref db a' k') ∨ (a' = index_name ∧ k' = k)).
Proof.
  intros Hwf Hf Hk.
  destruct (add_to_index_ok index_name key k i db Hwf Hf Hk)
    as (db' & E & Hwf' & Ha & Hb).
  exists db'. split_and!; try done.
  - rewrite Hb. by rewrite decide_True.
  - intros a' k' Hne. rewrite Hb. rewrite decide_False; [set_solver|].
    intros [-> ->]. done.
  - intros a' k'.
    pose proof (add_to_index_refs index_name key k i db Hwf Hf Hk a' k') as Hr.
    by rewrite E in Hr.
Qed.

Lemma add_to_index_inserts_witness :
  ∃ db', _add_to_index "rooms" (SInt 2) 7 __init__ = (db', inr ()) ∧
         bucket db' "rooms" (KInt 2) = bucket __init__ "rooms" (KInt 2) ∪ {[7%nat]}.
Proof.
  destruct (add_to_index_inserts "rooms" (SInt 2) (KInt 2) 7 __init__ wf_init)
    as (db' & E & _ & _ & Hb & _).
  - apply (bool_decide_unpack _). vm_compute. exact I.
  - reflexivity.
  - exists db'. by split.
Defined.

(** X2.  [_add_apartment] of a record with a hashable [metro] returns
    normally: the record is appended, so its position is the former length
    of the store, that position is added to the bucket of the record's value
    in each of the five indices and to no other bucket, and the indices stay
    consistent with the store. *)
Theorem add_apartment_appends apartment db :
  wf db → consistent db → hashable (metro apartment) →
  ∃ db', _add_apartment apartment db = (db', inr ()) ∧
    wf db' ∧ consistent db' ∧
    _apartments db' = (_apartments db ++ [apartment])%list ∧
    ∀ a k, bucket db' a k =
      bucket db a k ∪
      (if decide (attr_key a apartment = Some k)
       then {[length (_apartments db)]} else ∅).
Proof.
  intros Hwf Hc [km Hm].
  destruct (add_apartment_spec apartment db Hwf) as (db' & E & Hwf' & Ha & Hb).
  rewrite Hm in E. exists db'. split_and!; try done.
  by eapply consistent_add.
Qed.

Lemma add_apartment_appends_witness :
  ∃ db', _add_apartment (apt 60 2 10 2 "Akademicheskaya") __init__ = (db', inr ()) ∧
         _apartments db' = [apt 60 2 10 2 "Akademicheskaya"].
Proof.
  destruct (add_apartment_appends (apt 60 2 10 2 "Akademicheskaya") __init__
              wf_init (proj2 (reachable_inv __init__ reachable_init)))
    as (db' & E & _ & _ & Ha & _).
  - eexists. reflexivity.
  - exists db'. by split.
Defined.

(** X3.  [_add_apartment] of a record whose [metro] is unhashable raises
    [TypeError] after it has appended the record and entered its position in
    the four integer indices: the store is one record longer and the metro
    index is as before. *)
Theorem add_apartment_unhashable apartment db :
  wf db → ¬ hashable (metro apartment) →
  ∃ db', _add_apartment apartment db = (db', inl TypeError) ∧
    _apartments db' = (_apartments db ++ [apartment])%list ∧
    (∀ k, bucket db' "metro" k = bucket db "metro" k) ∧
    (∀ a k, a ≠ "metro" → bucket db' a k =
       bucket db a k ∪
       (if decide (attr_key a apartment = Some k)
        then {[length (_apartments db)]} else ∅)).
Proof.
  intros Hwf Hn.
  destruct (add_apartment_spec apartment db Hwf) as (db' & E & Hwf' & Ha & Hb).
  destruct (py_hash (metro apartment)) as [e|km] eqn:Hm;
    [|exfalso; apply Hn; by exists km].
  apply py_hash_error in Hm as Hte. subst e.
  exists db'. split_and!; [done|done| |by intros a k _].
  intros k. rewrite Hb. unfold attr_key, getattr. simpl. rewrite Hm.
  rewrite decide_False by done. set_solver.
Qed.

Lemma add_apartment_unhashable_witness :
  ∃ db', _add_apartment
           {| total_area := 60; rooms := 2; kitchen_area := 10;
              balconies := 2; metro := PList [] |} __init__
         = (db', inl TypeError) ∧
         length (_apartments db') = 1%nat.
Proof.
  destruct (add_apartment_unhashable
              {| total_area := 60; rooms := 2; kitchen_area := 10;
                 balconies := 2; metro := PList [] |} __init__ wf_init)
    as (db' & E & Ha & _).
  - intros [k Hk]. discriminate.
  - exists db'. split; [done|]. by rewrite Ha.
Defined.

(** X4.  After a load that returns normally the store has one record per
    input record, and the record at position [i] is the conversion of the
    [i]-th input record: identifiers follow the input order and nothing of
    the previous contents is left. *)
Theorem load_stores_in_order data db db' :
  reachable db → load_from_file data db = (db', inr ()) →
  length (_apartments db') = length data ∧
  ∀ i apt_data, data !! i = Some apt_data →
    ∃ apartment, make_apartment apt_data = inr apartment ∧
                 _apartments db' !! i = Some apartment.
Proof.
  intros Hr E. apply reachable_inv in Hr as [Hwf _].
  destruct (load_from_file_cases data db Hwf)
    as [(db1 & apts & E1 & HF & Ha & _)|(? & ? & ? & ? & ? & ? & E1 & _)];
    rewrite E in E1; [|done].
  injection E1 as <-. subst apts. split.
  - symmetry. by eapply Forall2_length.
  - intros i r Hi.
    destruct (Forall2_lookup_l _ _ _ _ _ HF Hi) as (a & Ha & [Hmk _]). eauto.
Qed.

Lemma load_stores_in_order_witness :
  length (_apartments sample_db) = length sample_data.
Proof.
  refine (proj1 (load_stores_in_order sample_data __init__ sample_db
                   reachable_init _)).
  vm_compute. reflexivity.
Defined.

(** The outcome of a load and the store it leaves, from the input alone. *)
Lemma load_from_file_determined data db1 db2 :
  wf db1 → wf db2 →
  snd (load_from_file data db1) = snd (load_from_file data db2) ∧
  _apartments (fst (load_from_file data db1))
  = _apartments (fst (load_from_file data db2)).
Proof.
  intros Hwf1 Hwf2.
  assert (Hfirst : ∀ k1 k2 r1 (apts2 : list Apartment),
    data !! k1 = Some r1 → ¬ accepted r1 →
    Forall2 loads_as (take k2 data) apts2 → (k2 ≤ k1)%nat).
  { intros k1 k2 r1 apts2 Hk1 Hna HF2.
    destruct (decide (k2 ≤ k1)%nat) as [|Hlt]; [done|]. exfalso. apply Hna.
    assert (Hall : Forall accepted (take k2 data))
      by (apply Forall_accepted; eauto).
    rewrite Forall_forall in Hall. apply Hall.
    apply list_elem_of_lookup. exists k1. rewrite lookup_take_lt by lia. done. }
  destruct (load_from_file_cases data db1 Hwf1)
    as [(d1 & apts1 & E1 & HF1 & Ha1 & _)
       |(d1 & e1 & k1 & r1 & dk1 & apts1 & E1 & Hk1 & Ek1 & HF1 & Ha1 & Hc1 & _)];
  destruct (load_from_file_cases data db2 Hwf2)
    as [(d2 & apts2 & E2 & HF2 & Ha2 & _)
       |(d2 & e2 & k2 & r2 & dk2 & apts2 & E2 & Hk2 & Ek2 & HF2 & Ha2 & Hc2 & _)];
  rewrite E1, E2; simpl.
  - split; [done|]. rewrite Ha1, Ha2. by eapply loads_as_functional.
  - exfalso. apply (failing_record_not_accepted r2 e2).
    + destruct Hc2 as [[? _]|(a & ? & ? & _)]; eauto.
    + assert (Hall : Forall accepted data) by (apply Forall_accepted; eauto).
      rewrite Forall_forall in Hall. apply Hall. by eapply list_elem_of_lookup_2.
  - exfalso. apply (failing_record_not_accepted r1 e1).
    + destruct Hc1 as [[? _]|(a & ? & ? & _)]; eauto.
    + assert (Hall : Forall accepted data) by (apply Forall_accepted; eauto).
      rewrite Forall_forall in Hall. apply Hall. by eapply list_elem_of_lookup_2.
  - assert (Hn1 : ¬ accepted r1).
    { apply (failing_record_not_accepted r1 e1).
      destruct Hc1 as [[? _]|(a & ? & ? & _)]; eauto. }
    assert (Hn2 : ¬ accepted r2).
    { apply (failing_record_not_accepted r2 e2).
      destruct Hc2 as [[? _]|(a & ? & ? & _)]; eauto. }
    pose proof (Hfirst k1 k2 r1 apts2 Hk1 Hn1 HF2).
    pose proof (Hfirst k2 k1 r2 apts1 Hk2 Hn2 HF1).
    assert (k1 = k2) as -> by lia.
    assert (r1 = r2) as -> by congruence.
    assert (apts1 = apts2) as -> by by eapply loads_as_functional.
    pose proof (load_from_file_inv (take k2 data) db1 Hwf1) as [Hwk1 _].
    pose proof (load_from_file_inv (take k2 data) db2 Hwf2) as [Hwk2 _].
    rewrite Ek1 in Hwk1. rewrite Ek2 in Hwk2. simpl in *.
    destruct Hc1 as [[Hm1 ->]|(a1 & Hm1 & Hh1 & Ea1)];
    destruct Hc2 as [[Hm2 ->]|(a2 & Hm2 & Hh2 & Ea2)];
      try congruence.
    + split; congruence.
    + assert (a1 = a2) as -> by congruence.
      split; [congruence|].
      destruct (add_apartment_spec a2 dk1 Hwk1) as (x1 & X1 & _ & Hx1 & _).
      destruct (add_apartment_spec a2 dk2 Hwk2) as (x2 & X2 & _ & Hx2 & _).
      rewrite Ea1 in X1. rewrite Ea2 in X2.
      injection X1 as <- _. injection X2 as <- _. congruence.
Qed.

(** X5.  What a load does depends on the input only, not on what the
    database held: from any two reachable states, loading the same data
    gives the same outcome (normal return or the same exception), the same
    store, and the same result for every later query. *)
Theorem load_replaces_contents data db1 db2 :
  reachable db1 → reachable db2 →
  snd (load_from_file data db1) = snd (load_from_file data db2) ∧
  _apartments (fst (load_from_file data db1))
  = _apartments (fst (load_from_file data db2)) ∧
  ∀ criteria operator,
    snd (search criteria operator (fst (load_from_file data db1)))
    = snd (search criteria operator (fst (load_from_file data db2))).
Proof.
  intros Hr1 Hr2.
  pose proof (reachable_inv db1 Hr1) as [Hwf1 _].
  pose proof (reachable_inv db2 Hr2) as [Hwf2 _].
  destruct (load_from_file_determined data db1 db2 Hwf1 Hwf2) as [Hs Ha].
  split; [done|]. split; [done|]. intros criteria operator.
  destruct (load_from_file_inv data db1 Hwf1) as [Hw1 Hc1].
  destruct (load_from_file_inv data db2 Hwf2) as [Hw2 Hc2].
  by apply search_snd_eq.
Qed.

Lemma load_replaces_contents_witness :
  _apartments (fst (load_from_file [bad_rooms] __init__))
  = _apartments (fst (load_from_file [bad_rooms] sample_db)).
Proof.
  exact (proj1 (proj2 (load_replaces_contents [bad_rooms] __init__ sample_db
                         reachable_init reachable_sample))).
Defined.

Lemma bucket_exists_iff db a k :
  reachable db →
  is_Some (bucket_ref db a k) ↔
  ∃ p apartment, _apartments db !! p = Some apartment ∧
                 attr_key a apartment = Some k.
Proof.
  intros Hr. pose proof (reachable_populated db Hr) as Hp.
  apply reachable_inv in Hr as [Hwf Hc]. split.
  - intros Hs. apply Hp in Hs. apply set_choose_L in Hs as [p Hin].
    apply Hc in Hin as (x & Hx & Hk). eauto.
  - intros (p & x & Hx & Hk).
    assert (Hin : p ∈ bucket db a k) by (apply Hc; eauto).
    unfold bucket in Hin. destruct (bucket_ref db a k); [eauto|set_solver].
Qed.

(** X6.  In any reachable state the keys of an index are exactly the values
    that the stored records have for that attribute: no index keeps an
    empty bucket or a key of a record that is gone. *)
Theorem index_keys_are_stored_values db a index k :
  reachable db → _indices db !! a = Some index →
  k ∈ dom index ↔
  ∃ p apartment, _apartments db !! p = Some apartment ∧
                 attr_key a apartment = Some k.
Proof.
  intros Hr Hi. rewrite <- (bucket_exists_iff db a k Hr).
  unfold bucket_ref. rewrite Hi. apply elem_of_dom.
Qed.

Lemma index_keys_are_stored_values_witness :
  KStr "Akademicheskaya" ∈ dom (default ∅ (_indices sample_db !! "metro")) ∧
  (KStr "Akademicheskaya" ∈ dom (default ∅ (_indices sample_db !! "metro")) ↔
   ∃ p apartment, _apartments sample_db !! p = Some apartment ∧
                  attr_key "metro" apartment = Some (KStr "Akademicheskaya")).
Proof.
  assert (Hi : _indices sample_db !! "metro"
               = Some (default ∅ (_indices sample_db !! "metro"))).
  { destruct (proj2 (wf_is_field sample_db "metro"
                       (proj1 (reachable_inv _ reachable_sample)))) as [i ->];
      [|done].
    apply (bool_decide_unpack _). vm_compute. exact I. }
  pose proof (index_keys_are_stored_values sample_db "metro" _
                (KStr "Akademicheskaya") reachable_sample Hi) as Hiff.
  split; [|exact Hiff].
  apply Hiff. exists 0%nat, (apt 75 3 12 1 "Akademicheskaya").
  split; vm_compute; reflexivity.
Defined.

(** X7.  In any reachable state the counts of the report summary are
    computed without a [KeyError] and without touching the database:
    the number of stored records and the number of distinct [metro] keys
    among them. *)
Theorem summary_counts_distinct db :
  reachable db →
  summary_counts db
  = (db, inr (length (_apartments db),
              size (list_to_set (omap (attr_key "metro") (_apartments db))
                    : gset pykey))).
Proof.
  intros Hr. pose proof (reachable_inv db Hr) as [Hwf _].
  unfold summary_counts.
  destruct (proj2 (wf_is_field db "metro" Hwf)) as [index Hi];
    [unfold fields; set_solver|].
  rewrite Hi. do 3 f_equal. rewrite <- size_dom. f_equal.
  apply set_eq. intros k.
  rewrite elem_of_dom, elem_of_list_to_set, list_elem_of_omap.
  assert (Hb : bucket_ref db "metro" k = index !! k)
    by (unfold bucket_ref; by rewrite Hi).
  rewrite <- Hb, (bucket_exists_iff db "metro" k Hr). split.
  - intros (p & x & Hx & Hk). exists x. split; [|done].
    by eapply list_elem_of_lookup_2.
  - intros (x & Hx & Hk). apply list_elem_of_lookup in Hx as [p Hp]. eauto.
Qed.

Lemma summary_counts_distinct_witness :
  snd (summary_counts sample_db) = inr (4%nat, 2%nat).
Proof.
  rewrite (summary_counts_distinct sample_db reachable_sample).
  vm_compute. reflexivity.
Defined.

(** X8.  In any reachable state, also after a load that raised,
    [_get_index_for_field] returns an index exactly for the five attribute
    names and [None] for every other name, and changes nothing. *)
Theorem get_index_for_field_known db field :
  reachable db →
  ∃ r, _get_index_for_field field db = (db, inr r) ∧
       (is_Some r ↔ field ∈ fields).
Proof.
  intros Hr. apply reachable_inv in Hr as [Hwf _].
  exists (_indices db !! field). split; [done|]. by apply wf_is_field.
Qed.

Lemma get_index_for_field_known_witness :
  ∃ r, _get_index_for_field "price" (fst (load_from_file [bad_rooms] sample_db))
       = (fst (load_from_file [bad_rooms] sample_db), inr r) ∧
       (is_Some r ↔ "price" ∈ fields).
Proof.
  exact (get_index_for_field_known (fst (load_from_file [bad_rooms] sample_db))
           "price" (reachable_load [bad_rooms] sample_db reachable_sample)).
Defined.

(** X9.  Loading an empty input returns normally and empties the
    database: the store and every bucket are empty and every query returns
    the empty list. *)
Theorem load_nothing db :
  reachable db →
  snd (load_from_file [] db) = inr () ∧
  _apartments (fst (load_from_file [] db)) = [] ∧
  (∀ a k, bucket (fst (load_from_file [] db)) a k = ∅) ∧
  ∀ criteria operator,
    snd (search criteria operator (fst (load_from_file [] db))) = inr [].
Proof.
  intros Hr. split_and!; try done.
  - intros a k. rewrite load_from_file_eq. simpl. unfold bucket.
    by rewrite bucket_ref_cleared.
  - intros criteria operator.
    pose proof (reachable_load [] db Hr) as Hr'.
    apply reachable_inv in Hr' as [Hwf Hc].
    destruct (search_returns _ criteria operator Hwf Hc)
      as (res & positions & E & _ & _ & HF).
    rewrite E. f_equal.
    destruct HF as [|i a positions res Hi _]; [done|done].
Qed.

Lemma load_nothing_witness :
  snd (search [("rooms", SInt 2)] "AND" (fst (load_from_file [] sample_db)))
  = inr [].
Proof.
  exact (proj2 (proj2 (proj2 (load_nothing sample_db reachable_sample)))
           [("rooms", SInt 2)] "AND").
Defined.

Lemma filter_sublist_impl {A} (P Q : A → Prop)
    `{!∀ x, Decision (P x)} `{!∀ x, Decision (Q x)} (l : list A) :
  (∀ x, P x → Q x) → filter P l `sublist_of` filter Q l.
Proof.
  intros Himp. induction l as [|x l IH]; [done|].
  rewrite !filter_cons.
  destruct (decide (P x)) as [HP|HP].
  - rewrite decide_True by auto. by apply sublist_skip.
  - destruct (decide (Q x)); [by apply sublist_cons|done].
Qed.

(** X15.  In any reachable state, adding criteria to a query under AND
    that has a recognised criterion never adds records: the new result is a
    subsequence of the old one. *)
Theorem search_and_narrows db criteria extra :
  reachable db → Exists (fun c => c.1 ∈ fields) criteria →
  ∃ res res',
    snd (search criteria "AND" db) = inr res ∧
    snd (search (criteria ++ extra) "AND" db) = inr res' ∧
    res' `sublist_of` res.
Proof.
  intros Hr Hex. eexists _, _.
  split; [by apply search_and_scan|].
  split; [apply search_and_scan; [done|by apply Exists_app; left]|].
  apply filter_sublist_impl. intros a. unfold matches_all.
  rewrite forallb_app. by intros [? _]%andb_prop.
Qed.

Lemma search_and_narrows_witness :
  ∃ res res',
    snd (search [("balconies", SInt 2)] "AND" sample_db) = inr res ∧
    snd (search ([("balconies", SInt 2)] ++ [("rooms", SInt 4)]) "AND" sample_db)
    = inr res' ∧
    res' `sublist_of` res.
Proof.
  apply (search_and_narrows sample_db [("balconies", SInt 2)]
           [("rooms", SInt 4)] reachable_sample).
  apply Exists_cons_hd. apply (bool_decide_unpack _). vm_compute. exact I.
Defined.

(** X16.  In any reachable state, adding criteria to a query under OR
    never removes records: the old result is a subsequence of the new
    one. *)
Theorem search_or_widens db criteria extra operator :
  reachable db → operator ≠ "AND" →
  ∃ res res',
    snd (search criteria operator db) = inr res ∧
    snd (search (criteria ++ extra) operator db) = inr res' ∧
    res `sublist_of` res'.
Proof.
  intros Hr Hop. eexists _, _.
  split; [by apply search_or_scan|].
  split; [by apply search_or_scan|].
  apply filter_sublist_impl. intros a. unfold matches_any.
  rewrite existsb_app. intros ->. done.
Qed.

Lemma search_or_widens_witness :
  ∃ res res',
    snd (search [("total_area", SInt 75)] "OR" sample_db) = inr res ∧
    snd (search ([("total_area", SInt 75)] ++ [("balconies", SInt 2)]) "OR"
           sample_db) = inr res' ∧
    res `sublist_of` res'.
Proof.
  apply (search_or_widens sample_db [("total_area", SInt 75)]
           [("balconies", SInt 2)] "OR" reachable_sample).
  discriminate.
Defined.

(** X17.  In any reachable state and for any criteria, the result under
    AND is a subsequence of the result under OR. *)
Theorem search_and_within_or db criteria :
  reachable db →
  ∃ res_and res_or,
    snd (search criteria "AND" db) = inr res_and ∧
    snd (search criteria "OR" db) = inr res_or ∧
    res_and `sublist_of` res_or.
Proof.
  intros Hr.
  destruct (decide (Exists (fun c : string * scalar => c.1 ∈ fields) criteria))
    as [Hex|Hnex].
  - eexists _, _. split; [by apply search_and_scan|].
    split; [by apply search_or_scan|].
    apply filter_sublist_impl. intros a.
    rewrite matches_all_spec, matches_any_spec. intros Hall.
    apply Exists_exists in Hex as (c & Hc & Hf). exists c. auto.
  - apply reachable_inv in Hr as [Hwf Hc].
    destruct (search_result db criteria "OR" Hwf Hc) as (res & E & _).
    exists [], res. split; [|split; [done|apply sublist_nil_l]].
    rewrite search_snd, search_ids_fold by done.
    rewrite fold_ids_unknown; [simpl; by rewrite sorted_empty|].
    apply Forall_forall. intros c Hcin Hf. apply Hnex, Exists_exists. eauto.
Qed.

Lemma search_and_within_or_witness :
  ∃ res_and res_or,
    snd (search [("total_area", SInt 75); ("balconies", SInt 2)] "AND" sample_db)
    = inr res_and ∧
    snd (search [("total_area", SInt 75); ("balconies", SInt 2)] "OR" sample_db)
    = inr res_or ∧
    res_and `sublist_of` res_or.
Proof.
  exact (search_and_within_or sample_db
           [("total_area", SInt 75); ("balconies", SInt 2)] reachable_sample).
Defined.
